(** * A streaming UTF-8 decoder and its decode view

    Shallow embedding of [src/utf-8/decoder.h] (class [utf8::decoder]) and of
    [src/utf-8.h] (class [utf8::decode_view] and its iterator), followed by
    the properties the specification states about them.

    Conventions of the embedding:
    - a [char8_t] is a [Byte.byte]; its numeric value is [byte_val];
    - [uint8_t] and [unsigned long] values are integers in [Z]; conversions to
      [uint8_t] and the wrap-around of [unsigned long] arithmetic are written
      out ([to_uint8], [to_ulong]); [unsigned long] is taken to be 64 bits wide
      (LP64);
    - [std::array::at] is bounds checked and throws [std::out_of_range]: every
      function that reaches a table lookup returns a [result];
    - member functions that modify the decoder return the new decoder next to
      their value; [check_last_error], a [const] member, is a pure function. *)

From Stdlib Require Import ZArith List Bool Lia.
From Stdlib Require Strings.Byte.
Import ListNotations.
Local Open Scope Z_scope.

(** ** Results of bounds-checked code *)

Inductive result (A : Type) : Type :=
| Ok (a : A)
| OutOfRange.
Arguments Ok {A} a.
Arguments OutOfRange {A}.

Definition bind {A B : Type} (r : result A) (k : A -> result B) : result B :=
  match r with
  | Ok a => k a
  | OutOfRange => OutOfRange
  end.

Notation "x <- r ;; k" := (bind r (fun x => k))
  (at level 61, r at next level, right associativity).
Notation "' p <- r ;; k" := (bind r (fun x => let 'p := x in k))
  (at level 61, p pattern, r at next level, right associativity).

(** [std::array::at]: the element at index [i], or [std::out_of_range]. *)
Definition at_ {A : Type} (a : list A) (i : Z) : result A :=
  if i <? 0 then OutOfRange
  else match nth_error a (Z.to_nat i) with
       | Some x => Ok x
       | None => OutOfRange
       end.

(** ** Machine integers *)

Definition byte_val (b : Byte.byte) : Z := Z.of_N (Byte.to_N b).

Definition to_uint8 (z : Z) : Z := z mod 2 ^ 8.

Definition ulong_bits : Z := 64.
Definition to_ulong (z : Z) : Z := z mod 2 ^ ulong_bits.

(** ** The decoder ([utf8::decoder]) *)

Module decoder.

Definition char_classes_ : list Z :=
  [ 0x0; 0x0; 0x0; 0x0; 0x0; 0x0; 0x0; 0x0; 0x0; 0x0; 0x0; 0x0; 0x0; 0x0; 0x0; 0x0;  (* 00..0f *)
    0x0; 0x0; 0x0; 0x0; 0x0; 0x0; 0x0; 0x0; 0x0; 0x0; 0x0; 0x0; 0x0; 0x0; 0x0; 0x0;  (* 10..1f *)
    0x0; 0x0; 0x0; 0x0; 0x0; 0x0; 0x0; 0x0; 0x0; 0x0; 0x0; 0x0; 0x0; 0x0; 0x0; 0x0;  (* 20..2f *)
    0x0; 0x0; 0x0; 0x0; 0x0; 0x0; 0x0; 0x0; 0x0; 0x0; 0x0; 0x0; 0x0; 0x0; 0x0; 0x0;  (* 30..3f *)
    0x0; 0x0; 0x0; 0x0; 0x0; 0x0; 0x0; 0x0; 0x0; 0x0; 0x0; 0x0; 0x0; 0x0; 0x0; 0x0;  (* 40..4f *)
    0x0; 0x0; 0x0; 0x0; 0x0; 0x0; 0x0; 0x0; 0x0; 0x0; 0x0; 0x0; 0x0; 0x0; 0x0; 0x0;  (* 50..5f *)
    0x0; 0x0; 0x0; 0x0; 0x0; 0x0; 0x0; 0x0; 0x0; 0x0; 0x0; 0x0; 0x0; 0x0; 0x0; 0x0;  (* 60..6f *)
    0x0; 0x0; 0x0; 0x0; 0x0; 0x0; 0x0; 0x0; 0x0; 0x0; 0x0; 0x0; 0x0; 0x0; 0x0; 0x0;  (* 70..7f *)
    0x1; 0x1; 0x1; 0x1; 0x1; 0x1; 0x1; 0x1; 0x1; 0x1; 0x1; 0x1; 0x1; 0x1; 0x1; 0x1;  (* 80..8f *)
    0x9; 0x9; 0x9; 0x9; 0x9; 0x9; 0x9; 0x9; 0x9; 0x9; 0x9; 0x9; 0x9; 0x9; 0x9; 0x9;  (* 90..9f *)
    0x7; 0x7; 0x7; 0x7; 0x7; 0x7; 0x7; 0x7; 0x7; 0x7; 0x7; 0x7; 0x7; 0x7; 0x7; 0x7;  (* a0..af *)
    0x7; 0x7; 0x7; 0x7; 0x7; 0x7; 0x7; 0x7; 0x7; 0x7; 0x7; 0x7; 0x7; 0x7; 0x7; 0x7;  (* b0..bf *)
    0x8; 0x8; 0x2; 0x2; 0x2; 0x2; 0x2; 0x2; 0x2; 0x2; 0x2; 0x2; 0x2; 0x2; 0x2; 0x2;  (* c0..cf *)
    0x2; 0x2; 0x2; 0x2; 0x2; 0x2; 0x2; 0x2; 0x2; 0x2; 0x2; 0x2; 0x2; 0x2; 0x2; 0x2;  (* d0..df *)
    0xa; 0x3; 0x3; 0x3; 0x3; 0x3; 0x3; 0x3; 0x3; 0x3; 0x3; 0x3; 0x3; 0x4; 0x3; 0x3;  (* e0..ef *)
    0xb; 0x6; 0x6; 0x6; 0x5; 0x8; 0x8; 0x8; 0x8; 0x8; 0x8; 0x8; 0x8; 0x8; 0x8; 0x8   (* f0..ff *)
  ].

Definition num_classes_ : Z := 12.
Definition num_fsm_rows_ : Z := 8.
Definition replacement_char_ : Z := 0xfffd.

(** [enum class state : uint8_t]. *)
Module state.
Inductive t : Type :=
| start | next1 | next2 | next3 | next4 | next5 | next6 | next7 | error.

(** [static_cast<uint8_t>(s)]. *)
Definition to_uint8 (s : t) : Z :=
  match s with
  | start => 0 | next1 => 1 | next2 => 2 | next3 => 3 | next4 => 4
  | next5 => 5 | next6 => 6 | next7 => 7 | error => 8
  end.
End state.

(** [enum class to_deliver]. *)
Module to_deliver.
Inductive t : Type := nothing | code_point | error.
End to_deliver.

Definition fsm_ : list state.t :=
  [ state.start; state.error; state.next1; state.next2; state.next4; state.next7;  (* state::start *)
    state.next6; state.error; state.error; state.error; state.next3; state.next5;  (* state::start *)
    state.error; state.start; state.error; state.error; state.error; state.error;  (* state::next1 *)
    state.error; state.start; state.error; state.start; state.error; state.error;  (* state::next1 *)
    state.error; state.next1; state.error; state.error; state.error; state.error;  (* state::next2 *)
    state.error; state.next1; state.error; state.next1; state.error; state.error;  (* state::next2 *)
    state.error; state.error; state.error; state.error; state.error; state.error;  (* state::next3 *)
    state.error; state.next1; state.error; state.error; state.error; state.error;  (* state::next3 *)
    state.error; state.next1; state.error; state.error; state.error; state.error;  (* state::next4 *)
    state.error; state.error; state.error; state.next1; state.error; state.error;  (* state::next4 *)
    state.error; state.error; state.error; state.error; state.error; state.error;  (* state::next5 *)
    state.error; state.next2; state.error; state.next2; state.error; state.error;  (* state::next5 *)
    state.error; state.next2; state.error; state.error; state.error; state.error;  (* state::next6 *)
    state.error; state.next2; state.error; state.next2; state.error; state.error;  (* state::next6 *)
    state.error; state.next2; state.error; state.error; state.error; state.error;  (* state::next7 *)
    state.error; state.error; state.error; state.error; state.error; state.error   (* state::next7 *)
  ].

(** The data members [code_], [state_] and [to_deliver_]. *)
Record t : Type := mk {
  code_ : Z;
  state_ : state.t;
  to_deliver_ : to_deliver.t
}.

(** A default-constructed decoder: [code_{}], [state_{state::start}],
    [to_deliver_{}]. *)
Definition new : t :=
  {| code_ := 0; state_ := state.start; to_deliver_ := to_deliver.nothing |}.

(** Assignments to the data members. *)
Definition set_code (d : t) (c : Z) : t :=
  {| code_ := c; state_ := state_ d; to_deliver_ := to_deliver_ d |}.
Definition set_state (d : t) (s : state.t) : t :=
  {| code_ := code_ d; state_ := s; to_deliver_ := to_deliver_ d |}.
Definition set_to_deliver (d : t) (v : to_deliver.t) : t :=
  {| code_ := code_ d; state_ := state_ d; to_deliver_ := v |}.

Definition next_state (s : state.t) (type : Z) : result state.t :=
  at_ fsm_ (state.to_uint8 s * num_classes_ + type).

Definition start_byte_payload (byte : Z) (type : Z) : Z :=
  let byte_mask := 0xff in
  to_uint8 (Z.land byte (Z.shiftr byte_mask type)).

Definition decode (d : t) (byte : Byte.byte) : result (option Z * t) :=
  type <- at_ char_classes_ (byte_val byte) ;;
  let data_mask := 0x3f in
  let data_shift := 6 in
  let d := set_to_deliver d to_deliver.nothing in
  new_state <- next_state (state_ d) type ;;
  match new_state with
  | state.error =>
      match state_ d with
      | state.start => (* single byte in error *)
          Ok (Some replacement_char_, d)
      | _ =>
          restart <- next_state state.start type ;;
          let d := set_state d restart in
          match state_ d with
          | state.error => (* interruption by byte in error *)
              let d := set_state d state.start in
              let d := set_to_deliver d to_deliver.error in
              Ok (Some replacement_char_, d)
          | state.start => (* interruption by single-byte code point *)
              let d := set_code d (start_byte_payload (byte_val byte) type) in
              let d := set_to_deliver d to_deliver.code_point in
              Ok (Some replacement_char_, d)
          | _ => (* interruption by multi-byte start byte *)
              let d := set_code d (start_byte_payload (byte_val byte) type) in
              Ok (Some replacement_char_, d)
          end
      end
  | _ =>
      let d :=
        set_code d
          match state_ d with
          | state.start => start_byte_payload (byte_val byte) type
          | _ => to_ulong (Z.lor (to_ulong (Z.shiftl (code_ d) data_shift))
                                 (Z.land (byte_val byte) data_mask))
          end in
      let d := set_state d new_state in
      match state_ d with
      | state.start => Ok (Some (code_ d), d)
      | _ => Ok (None, d)
      end
  end.

Definition fetch (d : t) : option Z * t :=
  let code :=
    match to_deliver_ d with
    | to_deliver.code_point => Some (code_ d)
    | to_deliver.error => Some replacement_char_
    | to_deliver.nothing => None
    end in
  let d := set_to_deliver d to_deliver.nothing in
  (code, d).

Definition check_last_error (d : t) : option Z :=
  match state_ d with
  | state.start => None
  | _ => Some replacement_char_
  end.

End decoder.

(** ** Driving the decoder one byte at a time

    The protocol of the decoder's documentation and tests: every byte goes to
    [decode]; when [decode] returns something, [fetch] is invoked once; after
    the last byte, [check_last_error] is invoked once.  [run] records every
    call with what it returned, [drive] keeps the code points. *)

Inductive call : Type :=
| decode_call (byte : Byte.byte) (r : option Z)
| fetch_call (r : option Z)
| check_last_error_call (r : option Z).

Definition returned (c : call) : option Z :=
  match c with
  | decode_call _ r => r
  | fetch_call r => r
  | check_last_error_call r => r
  end.

Definition opt_list {A : Type} (o : option A) : list A :=
  match o with
  | Some a => [a]
  | None => []
  end.

Definition emitted (calls : list call) : list Z :=
  flat_map (fun c => opt_list (returned c)) calls.

Fixpoint run (d : decoder.t) (bytes : list Byte.byte) : result (list call) :=
  match bytes with
  | [] => Ok [check_last_error_call (decoder.check_last_error d)]
  | b :: rest =>
      '(r, d) <- decoder.decode d b ;;
      match r with
      | Some _ =>
          let '(f, d) := decoder.fetch d in
          calls <- run d rest ;;
          Ok (decode_call b r :: fetch_call f :: calls)
      | None =>
          calls <- run d rest ;;
          Ok (decode_call b r :: calls)
      end
  end.

Definition drive (d : decoder.t) (bytes : list Byte.byte) : result (list Z) :=
  calls <- run d bytes ;; Ok (emitted calls).

(** The same pump with [fetch] invoked after every [decode], whether or not
    it returned something. *)
Fixpoint pump (d : decoder.t) (bytes : list Byte.byte) : result (list Z) :=
  match bytes with
  | [] => Ok (opt_list (decoder.check_last_error d))
  | b :: rest =>
      '(r, d) <- decoder.decode d b ;;
      let '(f, d) := decoder.fetch d in
      out <- pump d rest ;;
      Ok (opt_list r ++ opt_list f ++ out)
  end.

(** ** The decode view ([utf8::decode_view]) *)

Module decode_view.

(** The iterator.  [it_] is the part of the input range from the byte
    iterator to its sentinel [end_]: [it_ == end_] is [it_ = []], [*it_] is
    the head and [++it_] drops it. *)
Record iterator : Type := mk_iterator {
  it_ : list Byte.byte;
  decoder_ : decoder.t;
  code_ : Z;
  has_last_error_ : bool
}.

(** How the [while] loop of [iterator::decode] is left: at the end of the
    input, or at a byte for which [decoder_.decode] returned something. *)
Inductive loop_exit : Type :=
| at_end (decoder_ : decoder.t)
| at_code (it_ : list Byte.byte) (decoder_ : decoder.t) (code : Z).

Fixpoint decode_loop (it_ : list Byte.byte) (decoder_ : decoder.t)
  : result loop_exit :=
  match it_ with
  | [] => Ok (at_end decoder_)
  | b :: rest =>
      '(code, decoder_) <- decoder.decode decoder_ b ;;
      match code with
      | Some c => Ok (at_code it_ decoder_ c)
      | None => decode_loop rest decoder_
      end
  end.

Definition decode (i : iterator) : result iterator :=
  exit <- decode_loop (it_ i) (decoder_ i) ;;
  match exit with
  | at_end decoder_ =>
      match decoder.check_last_error decoder_ with
      | Some c =>
          Ok {| it_ := []; decoder_ := decoder_; code_ := c;
                has_last_error_ := true |}
      | None =>
          Ok {| it_ := []; decoder_ := decoder_; code_ := code_ i;
                has_last_error_ := has_last_error_ i |}
      end
  | at_code it_ decoder_ c =>
      Ok {| it_ := it_; decoder_ := decoder_; code_ := c;
            has_last_error_ := has_last_error_ i |}
  end.

Definition try_decode_one_code_point (i : iterator) : result iterator :=
  let '(code, decoder_) := decoder.fetch (decoder_ i) in
  match code with
  | Some c =>
      Ok {| it_ := it_ i; decoder_ := decoder_; code_ := c;
            has_last_error_ := has_last_error_ i |}
  | None =>
      let it_ := match it_ i with
                 | [] => []
                 | _ :: rest => rest
                 end in
      decode {| it_ := it_; decoder_ := decoder_; code_ := code_ i;
                has_last_error_ := has_last_error_ i |}
  end.

(** The constructor, as [decode_view::begin] calls it. *)
Definition begin (view_ : list Byte.byte) : result iterator :=
  decode {| it_ := view_; decoder_ := decoder.new; code_ := 0;
            has_last_error_ := false |}.

(** [operator++]. *)
Definition incr (i : iterator) : result iterator :=
  if has_last_error_ i
  then Ok {| it_ := it_ i; decoder_ := decoder_ i; code_ := code_ i;
             has_last_error_ := false |}
  else try_decode_one_code_point i.

(** [operator*]. *)
Definition deref (i : iterator) : Z := code_ i.

(** [operator==(nothing)]: comparison with the end sentinel. *)
Definition is_end (i : iterator) : bool :=
  match it_ i with
  | [] => negb (has_last_error_ i)
  | _ :: _ => false
  end.

(** Iterating the view from [i] to the end sentinel, as a range [for] loop
    or [std::ranges::equal] does: [for (; !(i == end()); ++i) yield *i].
    [fuel] bounds the number of loop iterations; [None] is fuel exhausted. *)
Fixpoint collect (fuel : nat) (i : iterator) : option (result (list Z)) :=
  match fuel with
  | O => None
  | S fuel =>
      if is_end i then Some (Ok [])
      else
        match incr i with
        | OutOfRange => Some OutOfRange
        | Ok i' =>
            match collect fuel i' with
            | Some (Ok out) => Some (Ok (deref i :: out))
            | Some OutOfRange => Some OutOfRange
            | None => None
            end
        end
  end.

Definition elements (fuel : nat) (view_ : list Byte.byte)
  : option (result (list Z)) :=
  match begin view_ with
  | OutOfRange => Some OutOfRange
  | Ok i => collect fuel i
  end.

End decode_view.

(** ** Unicode reference definitions

    What the Unicode Standard (chapter 3, tables 3-6 and 3-7) and RFC 3629
    say about UTF-8, independently of the decoder above: scalar values, the
    encoding of a scalar value, the well-formed byte sequences, and the
    substitution of U+FFFD for maximal subparts of ill-formed sequences. *)

Module unicode.

Definition is_scalar_value (c : Z) : Prop :=
  0 <= c <= 0x10FFFF /\ ~ (0xD800 <= c <= 0xDFFF).

Definition to_byte (z : Z) : Byte.byte :=
  match Byte.of_N (Z.to_N (z mod 256)) with
  | Some b => b
  | None => Byte.x00
  end.

(** The UTF-8 encoding of a scalar value (table 3-6). *)
Definition encode (c : Z) : list Byte.byte :=
  if c <? 0x80 then
    [to_byte c]
  else if c <? 0x800 then
    [to_byte (Z.lor 0xC0 (Z.shiftr c 6));
     to_byte (Z.lor 0x80 (Z.land c 0x3F))]
  else if c <? 0x10000 then
    [to_byte (Z.lor 0xE0 (Z.shiftr c 12));
     to_byte (Z.lor 0x80 (Z.land (Z.shiftr c 6) 0x3F));
     to_byte (Z.lor 0x80 (Z.land c 0x3F))]
  else
    [to_byte (Z.lor 0xF0 (Z.shiftr c 18));
     to_byte (Z.lor 0x80 (Z.land (Z.shiftr c 12) 0x3F));
     to_byte (Z.lor 0x80 (Z.land (Z.shiftr c 6) 0x3F));
     to_byte (Z.lor 0x80 (Z.land c 0x3F))].

Definition encode_all (cs : list Z) : list Byte.byte := flat_map encode cs.

Definition in_range (lo hi : Z) (b : Byte.byte) : bool :=
  (lo <=? byte_val b) && (byte_val b <=? hi).

(** The rows of table 3-7 (well-formed UTF-8 byte sequences) that have more
    than one byte, named after their first byte. *)
Inductive row : Type :=
| C2_DF | E0 | E1_EC | ED | EE_EF | F0 | F1_F3 | F4.

Definition first_byte (b : Byte.byte) : option row :=
  if in_range 0xC2 0xDF b then Some C2_DF
  else if in_range 0xE0 0xE0 b then Some E0
  else if in_range 0xE1 0xEC b then Some E1_EC
  else if in_range 0xED 0xED b then Some ED
  else if in_range 0xEE 0xEF b then Some EE_EF
  else if in_range 0xF0 0xF0 b then Some F0
  else if in_range 0xF1 0xF3 b then Some F1_F3
  else if in_range 0xF4 0xF4 b then Some F4
  else None.

(** The range of the second byte of a row. *)
Definition second_byte (r : row) : Z * Z :=
  match r with
  | C2_DF => (0x80, 0xBF)
  | E0 => (0xA0, 0xBF)
  | E1_EC => (0x80, 0xBF)
  | ED => (0x80, 0x9F)
  | EE_EF => (0x80, 0xBF)
  | F0 => (0x90, 0xBF)
  | F1_F3 => (0x80, 0xBF)
  | F4 => (0x80, 0x8F)
  end.

(** The number of bytes of a row after the second one; each of them is in
    80..BF. *)
Definition more_bytes (r : row) : nat :=
  match r with
  | C2_DF => 0
  | E0 | E1_EC | ED | EE_EF => 1
  | F0 | F1_F3 | F4 => 2
  end.

Definition is_second (r : row) (b : Byte.byte) : bool :=
  in_range (fst (second_byte r)) (snd (second_byte r)) b.

Definition is_trail (b : Byte.byte) : bool := in_range 0x80 0xBF b.

(** The scalar value of a well-formed sequence (bit distribution of
    table 3-6). *)
Definition low6 (b : Byte.byte) : Z := Z.land (byte_val b) 0x3F.

Definition scalar2 (b1 b2 : Byte.byte) : Z :=
  Z.lor (Z.shiftl (Z.land (byte_val b1) 0x1F) 6) (low6 b2).

Definition scalar3 (b1 b2 b3 : Byte.byte) : Z :=
  Z.lor (Z.lor (Z.shiftl (Z.land (byte_val b1) 0x0F) 12)
               (Z.shiftl (low6 b2) 6))
        (low6 b3).

Definition scalar4 (b1 b2 b3 b4 : Byte.byte) : Z :=
  Z.lor (Z.lor (Z.lor (Z.shiftl (Z.land (byte_val b1) 0x07) 18)
                      (Z.shiftl (low6 b2) 12))
               (Z.shiftl (low6 b3) 6))
        (low6 b4).

(** A byte sequence splits, from left to right, into well-formed sequences
    and maximal subparts of ill-formed sequences.  A maximal subpart is
    the longest run of bytes, from a position where no well-formed
    sequence starts, that begins a well-formed sequence, or one byte when
    there is no such run. *)
Inductive subpart : Type :=
| well_formed (bytes : list Byte.byte) (scalar : Z)
| ill_formed (bytes : list Byte.byte).

Definition bytes_of (p : subpart) : list Byte.byte :=
  match p with
  | well_formed bytes _ => bytes
  | ill_formed bytes => bytes
  end.

Fixpoint subparts (bytes : list Byte.byte) : list subpart :=
  match bytes with
  | [] => []
  | b1 :: after1 =>
      if in_range 0x00 0x7F b1 then
        well_formed [b1] (byte_val b1) :: subparts after1
      else
        match first_byte b1 with
        | None => ill_formed [b1] :: subparts after1
        | Some r =>
            match after1 with
            | [] => [ill_formed [b1]]
            | b2 :: after2 =>
                if negb (is_second r b2) then
                  ill_formed [b1] :: subparts after1
                else
                  match more_bytes r with
                  | O => well_formed [b1; b2] (scalar2 b1 b2) :: subparts after2
                  | S more =>
                      match after2 with
                      | [] => [ill_formed [b1; b2]]
                      | b3 :: after3 =>
                          if negb (is_trail b3) then
                            ill_formed [b1; b2] :: subparts after2
                          else
                            match more with
                            | O =>
                                well_formed [b1; b2; b3] (scalar3 b1 b2 b3)
                                  :: subparts after3
                            | S _ =>
                                match after3 with
                                | [] => [ill_formed [b1; b2; b3]]
                                | b4 :: after4 =>
                                    if negb (is_trail b4) then
                                      ill_formed [b1; b2; b3] :: subparts after3
                                    else
                                      well_formed [b1; b2; b3; b4]
                                                  (scalar4 b1 b2 b3 b4)
                                        :: subparts after4
                                end
                            end
                      end
                  end
            end
        end
  end.

(** U+FFFD substitution of maximal subparts: a well-formed sequence gives
    its scalar value, a maximal subpart of an ill-formed sequence gives one
    U+FFFD. *)
Definition replacement_character : Z := 0xFFFD.

Definition converted (p : subpart) : Z :=
  match p with
  | well_formed _ scalar => scalar
  | ill_formed _ => replacement_character
  end.

Definition decode (bytes : list Byte.byte) : list Z :=
  map converted (subparts bytes).

(** The well-formed byte sequences of table 3-7, with the scalar value each
    one stands for. *)
Definition well_formed_sequence (bytes : list Byte.byte) (scalar : Z) : Prop :=
  match bytes with
  | [b1] =>
      in_range 0x00 0x7F b1 = true /\ scalar = byte_val b1
  | [b1; b2] =>
      exists r, first_byte b1 = Some r /\ more_bytes r = 0%nat /\
                is_second r b2 = true /\ scalar = scalar2 b1 b2
  | [b1; b2; b3] =>
      exists r, first_byte b1 = Some r /\ more_bytes r = 1%nat /\
                is_second r b2 = true /\ is_trail b3 = true /\
                scalar = scalar3 b1 b2 b3
  | [b1; b2; b3; b4] =>
      exists r, first_byte b1 = Some r /\ more_bytes r = 2%nat /\
                is_second r b2 = true /\ is_trail b3 = true /\
                is_trail b4 = true /\ scalar = scalar4 b1 b2 b3 b4
  | _ => False
  end.

(** An offset is convertible when a well-formed sequence starts there;
    [bytes] is the input from the offset on. *)
Definition convertible (bytes : list Byte.byte) : Prop :=
  exists bs rest c, bytes = bs ++ rest /\ well_formed_sequence bs c.

Definition initial_subsequence (bs : list Byte.byte) : Prop :=
  exists more c, well_formed_sequence (bs ++ more) c.

(** Maximal subpart of an ill-formed subsequence (definition D93b): the
    longest subsequence [bs], starting at an unconvertible offset of the
    input [bs ++ rest], that is either the initial subsequence of a
    well-formed sequence or a subsequence of length one. *)
Definition maximal_subpart (bs rest : list Byte.byte) : Prop :=
  bs <> [] /\
  ~ convertible (bs ++ rest) /\
  (initial_subsequence bs \/ length bs = 1%nat) /\
  forall more rest',
    rest = more ++ rest' -> more <> [] -> ~ initial_subsequence (bs ++ more).

(** The split of a byte sequence, from left to right, into well-formed
    sequences and maximal subparts. *)
Inductive splits : list Byte.byte -> list subpart -> Prop :=
| splits_nil : splits [] []
| splits_well_formed (bs : list Byte.byte) (c : Z) (rest : list Byte.byte)
                     (ps : list subpart) :
    well_formed_sequence bs c -> splits rest ps ->
    splits (bs ++ rest) (well_formed bs c :: ps)
| splits_ill_formed (bs rest : list Byte.byte) (ps : list subpart) :
    maximal_subpart bs rest -> splits rest ps ->
    splits (bs ++ rest) (ill_formed bs :: ps).

End unicode.

(** ** The decoder's automaton, read against table 3-7

    What each state of the automaton stands for in terms of table 3-7: the
    state a first byte leads to, the range of bytes a state accepts, and the
    state after an accepted byte. *)

Definition state_of_row (r : unicode.row) : decoder.state.t :=
  match r with
  | unicode.C2_DF => decoder.state.next1
  | unicode.E1_EC | unicode.EE_EF => decoder.state.next2
  | unicode.E0 => decoder.state.next3
  | unicode.ED => decoder.state.next4
  | unicode.F0 => decoder.state.next5
  | unicode.F1_F3 => decoder.state.next6
  | unicode.F4 => decoder.state.next7
  end.

Definition lead_mask (r : unicode.row) : Z :=
  match unicode.more_bytes r with
  | O => 0x1F
  | S O => 0x0F
  | _ => 0x07
  end.

Definition lead_payload (r : unicode.row) (b : Byte.byte) : Z :=
  Z.land (byte_val b) (lead_mask r).

Definition awaiting (s : decoder.state.t) : bool :=
  match s with
  | decoder.state.start | decoder.state.error => false
  | _ => true
  end.

Definition wanted (s : decoder.state.t) : Z * Z :=
  match s with
  | decoder.state.next3 => (0xA0, 0xBF)
  | decoder.state.next4 => (0x80, 0x9F)
  | decoder.state.next5 => (0x90, 0xBF)
  | decoder.state.next7 => (0x80, 0x8F)
  | _ => (0x80, 0xBF)
  end.

Definition is_wanted (s : decoder.state.t) (b : Byte.byte) : bool :=
  unicode.in_range (fst (wanted s)) (snd (wanted s)) b.

Definition after (s : decoder.state.t) : decoder.state.t :=
  match s with
  | decoder.state.next1 => decoder.state.start
  | decoder.state.next2 | decoder.state.next3 | decoder.state.next4 =>
      decoder.state.next1
  | decoder.state.next5 | decoder.state.next6 | decoder.state.next7 =>
      decoder.state.next2
  | _ => decoder.state.error
  end.

(** The accumulator after one more continuation byte, as [decode] computes
    it. *)
Definition shifted (c : Z) (b : Byte.byte) : Z :=
  to_ulong (Z.lor (to_ulong (Z.shiftl c 6)) (Z.land (byte_val b) 0x3f)).

(** The decoder a byte leaves behind when it interrupts a sequence. *)
Definition restarted (c : Z) (b : Byte.byte) : decoder.t :=
  if unicode.in_range 0x00 0x7F b then
    decoder.mk (byte_val b) decoder.state.start decoder.to_deliver.code_point
  else
    match unicode.first_byte b with
    | None => decoder.mk c decoder.state.start decoder.to_deliver.error
    | Some r =>
        decoder.mk (lead_payload r b) (state_of_row r) decoder.to_deliver.nothing
    end.

Definition rmap {A B : Type} (f : A -> B) (r : result A) : result B :=
  x <- r ;; Ok (f x).

(** ** Arbitrary use of the decoder

    A client may invoke the three member functions in any order.
    [perform_all] runs a list of invocations and collects what each one
    returned, next to the decoder they leave behind. *)

Inductive operation : Type :=
| op_decode (byte : Byte.byte)
| op_fetch
| op_check_last_error.

Definition perform (d : decoder.t) (o : operation)
  : result (option Z * decoder.t) :=
  match o with
  | op_decode byte => decoder.decode d byte
  | op_fetch => Ok (decoder.fetch d)
  | op_check_last_error => Ok (decoder.check_last_error d, d)
  end.

Fixpoint perform_all (d : decoder.t) (ops : list operation)
  : result (list (option Z) * decoder.t) :=
  match ops with
  | [] => Ok ([], d)
  | o :: ops =>
      '(r, d) <- perform d o ;;
      '(rs, d) <- perform_all d ops ;;
      Ok (r :: rs, d)
  end.

(** ** What the decoder keeps between calls

    The values the accumulator can hold in each state, and the bound on a
    pending code point.  [error] is never a stored state. *)

Definition accumulates (s : decoder.state.t) (c : Z) : bool :=
  match s with
  | decoder.state.start => true
  | decoder.state.next1 =>
      ((0x02 <=? c) && (c <=? 0x35F)) || ((0x380 <=? c) && (c <=? 0x43FF))
  | decoder.state.next2 =>
      ((0x01 <=? c) && (c <=? 0x0C)) || ((0x0E <=? c) && (c <=? 0x10F))
  | decoder.state.next3 => c =? 0x00
  | decoder.state.next4 => c =? 0x0D
  | decoder.state.next5 => c =? 0x00
  | decoder.state.next6 => (0x01 <=? c) && (c <=? 0x03)
  | decoder.state.next7 => c =? 0x04
  | decoder.state.error => false
  end.

Definition well_kept (d : decoder.t) : Prop :=
  accumulates (decoder.state_ d) (decoder.code_ d) = true /\
  (decoder.to_deliver_ d = decoder.to_deliver.code_point ->
   decoder.state_ d = decoder.state.start /\ 0 <= decoder.code_ d <= 0x7F).

Definition scalar_if_any (r : option Z) : Prop :=
  forall v, r = Some v -> unicode.is_scalar_value v.

(** ** Iterating the view, step by step

    [traverse] iterates from an iterator that has still to run its [decode]
    member, which is where the constructor and [try_decode_one_code_point]
    leave it; [yield] puts an element in front of what an iteration gives. *)

Definition traverse (fuel : nat) (i : decode_view.iterator)
  : option (result (list Z)) :=
  match decode_view.decode i with
  | OutOfRange => Some OutOfRange
  | Ok i' => decode_view.collect fuel i'
  end.

Definition yield (v : Z) (o : option (result (list Z)))
  : option (result (list Z)) :=
  match o with
  | Some (Ok out) => Some (Ok (v :: out))
  | Some OutOfRange => Some OutOfRange
  | None => None
  end.

(** ** The calls a well-formed sequence takes

    Driving the decoder over a well-formed sequence is expected to take one
    [decode] that returns nothing for each byte but the last, a [decode]
    that returns the scalar value for the last byte, and a [fetch] that
    returns nothing. *)

Definition calls_for (bytes : list Byte.byte) (scalar : Z) : list call :=
  map (fun b => decode_call b None) (removelast bytes)
  ++ [decode_call (last bytes Byte.x00) (Some scalar); fetch_call None].

Definition expected_calls (c : Z) : list call :=
  calls_for (unicode.encode c) c.

(** ** Deciding convertible offsets and initial subsequences

    [starts bytes] tells whether a well-formed sequence starts [bytes], and
    [begins bs] whether [bs] begins a well-formed sequence; both read
    table 3-7 directly. *)

Fixpoint trails (n : nat) (l : list Byte.byte) : bool :=
  match n with
  | O => true
  | S n =>
      match l with
      | [] => false
      | b :: l => unicode.is_trail b && trails n l
      end
  end.

Definition starts (bytes : list Byte.byte) : bool :=
  match bytes with
  | [] => false
  | b1 :: l1 =>
      match unicode.first_byte b1 with
      | None => unicode.in_range 0x00 0x7F b1
      | Some r =>
          match l1 with
          | [] => false
          | b2 :: l2 =>
              unicode.is_second r b2 && trails (unicode.more_bytes r) l2
          end
      end
  end.

Definition begins (bs : list Byte.byte) : bool :=
  match bs with
  | [] => true
  | b1 :: l1 =>
      match unicode.first_byte b1 with
      | None =>
          unicode.in_range 0x00 0x7F b1
          && match l1 with [] => true | _ :: _ => false end
      | Some r =>
          match l1 with
          | [] => true
          | b2 :: l2 =>
              unicode.is_second r b2 && forallb unicode.is_trail l2
              && (length l2 <=? unicode.more_bytes r)%nat
          end
      end
  end.

(** ** One chunk of input

    [feed] is the loop of the protocol without the final
    [check_last_error]: what a client does with one chunk of a longer input.
    It returns the code points of the chunk and the decoder to go on with. *)


(** ** The range adaptor ([utf8::views::decode])

    The adaptor has one overload for ranges of [char8_t] and one for ranges
    of [char], which goes through [std::bit_cast<char8_t>].  A [char] is
    given by its numeric value: [-128..127] where [char] is signed,
    [0..255] where it is not; [bit_cast_char8_t] keeps its eight bits. *)

Module views.

Definition bit_cast_char8_t (c : Z) : Byte.byte :=
  match Byte.of_N (Z.to_N (c mod 2 ^ 8)) with
  | Some b => b
  | None => Byte.x00
  end.

Definition decode (fuel : nat) (arg : list Byte.byte)
  : option (result (list Z)) :=
  decode_view.elements fuel arg.

Definition decode_char (fuel : nat) (arg : list Z)
  : option (result (list Z)) :=
  decode_view.elements fuel (map bit_cast_char8_t arg).

End views.

(** The numeric value of the [char] that holds a byte, where [char] is
    signed (two's complement). *)
Definition signed_char (b : Byte.byte) : Z :=
  if byte_val b <? 128 then byte_val b else byte_val b - 256.

(** ** Advancing an iterator several times *)

Fixpoint increments (n : nat) (i : decode_view.iterator)
  : result decode_view.iterator :=
  match n with
  | O => Ok i
  | S n => i' <- decode_view.incr i ;; increments n i'
  end.

(** The number of continuation bytes a state still waits for. *)
Definition awaited (s : decoder.state.t) : nat :=
  match s with
  | decoder.state.start | decoder.state.error => 0
  | decoder.state.next1 => 1
  | decoder.state.next2 | decoder.state.next3 | decoder.state.next4 => 2
  | decoder.state.next5 | decoder.state.next6 | decoder.state.next7 => 3
  end.

Definition is_fetch (o : operation) : bool :=
  match o with
  | op_fetch => true
  | _ => false
  end.

(** ** What an iterator keeps

    What holds of every iterator obtained from [begin] by [operator++]: the
    byte iterator points into the input, the decoder is well kept, the
    final-error flag is only set at the end of the input and with U+FFFD
    exposed, nothing is pending once the input is used up, and an iterator
    that is not at the end exposes a scalar value. *)

Definition iterator_kept (view_ : list Byte.byte) (i : decode_view.iterator)
  : Prop :=
  (exists consumed, view_ = consumed ++ decode_view.it_ i) /\
  well_kept (decode_view.decoder_ i) /\
  (decode_view.has_last_error_ i = true ->
   decode_view.it_ i = [] /\ decode_view.code_ i = 0xFFFD /\
   decoder.state_ (decode_view.decoder_ i) <> decoder.state.start) /\
  (decode_view.it_ i = [] ->
   decoder.to_deliver_ (decode_view.decoder_ i) = decoder.to_deliver.nothing) /\
  (decode_view.is_end i = false ->
   unicode.is_scalar_value (decode_view.code_ i)).

(** The same iterator over an input with more bytes at its end. *)
Definition extended (more : list Byte.byte) (i : decode_view.iterator)
  : decode_view.iterator :=
  decode_view.mk_iterator (decode_view.it_ i ++ more)
                          (decode_view.decoder_ i) (decode_view.code_ i)
                          (decode_view.has_last_error_ i).

(** * Properties *)

(** ** Bytes and bit operations *)

Lemma byte_val_range (b : Byte.byte) : 0 <= byte_val b < 256.
Proof.
  unfold byte_val. pose proof (Byte.to_N_bounded b). lia.
Qed.

Lemma byte_val_to_byte (z : Z) :
  0 <= z < 256 -> byte_val (unicode.to_byte z) = z.
Proof.
  intros Hz. unfold unicode.to_byte, byte_val.
  rewrite Z.mod_small by exact Hz.
  destruct (Byte.of_N (Z.to_N z)) as [b|] eqn:E.
  - apply Byte.to_of_N in E. rewrite E. lia.
  - apply Byte.of_N_None_iff in E. lia.
Qed.

Lemma land_shiftl_low (x y n : Z) :
  0 <= n -> 0 <= y < 2 ^ n -> Z.land (Z.shiftl x n) y = 0.
Proof.
  intros Hn Hy. apply Z.bits_inj'. intros i Hi.
  rewrite Z.land_spec, Z.bits_0.
  destruct (Z.lt_ge_cases i n) as [Hlt|Hge].
  - rewrite Z.shiftl_spec_low by exact Hlt. reflexivity.
  - rewrite <- (Z.mod_small y (2 ^ n)) by exact Hy.
    rewrite Z.mod_pow2_bits_high by lia. apply andb_false_r.
Qed.

Lemma lor_shiftl_add (x y n : Z) :
  0 <= n -> 0 <= y < 2 ^ n -> Z.lor (Z.shiftl x n) y = x * 2 ^ n + y.
Proof.
  intros Hn Hy.
  rewrite <- Z.lxor_lor by (apply land_shiftl_low; assumption).
  rewrite <- Z.add_nocarry_lxor by (apply land_shiftl_low; assumption).
  rewrite Z.shiftl_mul_pow2 by exact Hn. reflexivity.
Qed.

Lemma to_ulong_small (z : Z) : 0 <= z < 2 ^ 64 -> to_ulong z = z.
Proof. intros Hz. unfold to_ulong, ulong_bits. apply Z.mod_small. exact Hz. Qed.

Lemma low6_trail (b : Byte.byte) :
  unicode.is_trail b = true -> unicode.low6 b = byte_val b - 0x80.
Proof. destruct b; intros H; try discriminate H; reflexivity. Qed.

Lemma in_range_spec (lo hi : Z) (b : Byte.byte) :
  unicode.in_range lo hi b = true <-> lo <= byte_val b <= hi.
Proof. unfold unicode.in_range. lia. Qed.

Lemma in_range_false (lo hi : Z) (b : Byte.byte) :
  unicode.in_range lo hi b = false <-> ~ (lo <= byte_val b <= hi).
Proof. unfold unicode.in_range. lia. Qed.

(** ** One step of the decoder, by state and byte range *)

Lemma decode_at_start (c : Z) (td : decoder.to_deliver.t) (b : Byte.byte) :
  decoder.decode (decoder.mk c decoder.state.start td) b =
  Ok (if unicode.in_range 0x00 0x7F b then
        (Some (byte_val b),
         decoder.mk (byte_val b) decoder.state.start decoder.to_deliver.nothing)
      else
        match unicode.first_byte b with
        | None =>
            (Some decoder.replacement_char_,
             decoder.mk c decoder.state.start decoder.to_deliver.nothing)
        | Some r =>
            (None,
             decoder.mk (lead_payload r b) (state_of_row r)
                        decoder.to_deliver.nothing)
        end).
Proof. destruct b; reflexivity. Qed.

Lemma decode_awaiting (c : Z) (s : decoder.state.t) (td : decoder.to_deliver.t)
      (b : Byte.byte) :
  awaiting s = true ->
  decoder.decode (decoder.mk c s td) b =
  Ok (if is_wanted s b then
        (match after s with
         | decoder.state.start => Some (shifted c b)
         | _ => None
         end,
         decoder.mk (shifted c b) (after s) decoder.to_deliver.nothing)
      else (Some decoder.replacement_char_, restarted c b)).
Proof. destruct s; try discriminate; intros _; destruct b; reflexivity. Qed.

Lemma shifted_add (c : Z) (b : Byte.byte) :
  0 <= c < 2 ^ 32 -> unicode.is_trail b = true ->
  shifted c b = c * 64 + (byte_val b - 0x80).
Proof.
  intros Hc Hb. unfold shifted.
  pose proof (low6_trail b Hb) as Hl. unfold unicode.low6 in Hl.
  apply in_range_spec in Hb.
  assert (Hs : Z.shiftl c 6 = c * 64)
    by (rewrite Z.shiftl_mul_pow2 by lia; reflexivity).
  rewrite (to_ulong_small (Z.shiftl c 6)) by (rewrite Hs; lia).
  change 0x3f with 0x3F. rewrite Hl.
  rewrite lor_shiftl_add by (change (2 ^ 6) with 64; lia).
  change (2 ^ 6) with 64. apply to_ulong_small. lia.
Qed.

(** ** Single calls *)

(** C8.  From [start], a byte of class 0 (00..7F) is returned as its own
    scalar value, a byte of class 1, 7, 8 or 9 (80..C1, F5..FF) gives U+FFFD
    and leaves the state at [start], and every other byte returns nothing;
    the three cases cover every byte. *)
Theorem decode_single_byte_at_start (d : decoder.t) (b : Byte.byte) :
  decoder.state_ d = decoder.state.start ->
  exists t d',
    at_ decoder.char_classes_ (byte_val b) = Ok t /\
    (t = 0 <-> 0x00 <= byte_val b <= 0x7F) /\
    (t = 1 \/ t = 7 \/ t = 8 \/ t = 9 <->
     0x80 <= byte_val b <= 0xC1 \/ 0xF5 <= byte_val b <= 0xFF) /\
    (t = 0 /\
       decoder.decode d b = Ok (Some (byte_val b), d') /\
       decoder.state_ d' = decoder.state.start
     \/
     (t = 1 \/ t = 7 \/ t = 8 \/ t = 9) /\
       decoder.decode d b = Ok (Some decoder.replacement_char_, d') /\
       decoder.state_ d' = decoder.state.start
     \/
     (t <> 0 /\ t <> 1 /\ t <> 7 /\ t <> 8 /\ t <> 9) /\
       decoder.decode d b = Ok (None, d') /\
       decoder.state_ d' <> decoder.state.start).
Proof.
  destruct d as [c s td]. cbn [decoder.state_]. intros ->.
  destruct b;
    (eexists; eexists; split; [reflexivity|];
     split; [cbv [byte_val Byte.to_N Z.of_N]; lia|];
     split; [cbv [byte_val Byte.to_N Z.of_N]; lia|];
     first
       [ left; split; [reflexivity|]; split; reflexivity
       | right; left; split; [lia|]; split; reflexivity
       | right; right; split; [lia|]; split; [reflexivity|discriminate] ]).
Qed.

Lemma decode_single_byte_at_start_witness :
  exists t d',
    at_ decoder.char_classes_ (byte_val Byte.x41) = Ok t /\
    (t = 0 <-> 0x00 <= byte_val Byte.x41 <= 0x7F) /\
    (t = 1 \/ t = 7 \/ t = 8 \/ t = 9 <->
     0x80 <= byte_val Byte.x41 <= 0xC1 \/ 0xF5 <= byte_val Byte.x41 <= 0xFF) /\
    (t = 0 /\
       decoder.decode decoder.new Byte.x41 = Ok (Some (byte_val Byte.x41), d') /\
       decoder.state_ d' = decoder.state.start
     \/
     (t = 1 \/ t = 7 \/ t = 8 \/ t = 9) /\
       decoder.decode decoder.new Byte.x41 = Ok (Some decoder.replacement_char_, d') /\
       decoder.state_ d' = decoder.state.start
     \/
     (t <> 0 /\ t <> 1 /\ t <> 7 /\ t <> 8 /\ t <> 9) /\
       decoder.decode decoder.new Byte.x41 = Ok (None, d') /\
       decoder.state_ d' <> decoder.state.start).
Proof. apply (decode_single_byte_at_start decoder.new Byte.x41). reflexivity. Defined.

Lemma class_zero_payload (b : Byte.byte) (t : Z) :
  at_ decoder.char_classes_ (byte_val b) = Ok t ->
  decoder.next_state decoder.state.start t = Ok decoder.state.start ->
  decoder.start_byte_payload (byte_val b) t = byte_val b.
Proof.
  destruct b; intros Ht; injection Ht as <-; intros H;
    first [reflexivity | discriminate H].
Qed.

(** C4.  A byte whose class has no transition from the current state, the
    current state not being [start], makes [decode] return U+FFFD for the
    interrupted sequence, and is then looked up again from [start]: when
    that gives [error], the state becomes [start] and a second U+FFFD is
    pending; when it gives [start], the byte's own scalar value is pending
    and the accumulator holds its payload; otherwise the state is the one
    looked up, the accumulator holds the start-byte payload and nothing is
    pending. *)
Theorem decode_interrupted (d : decoder.t) (b : Byte.byte) (t : Z) :
  at_ decoder.char_classes_ (byte_val b) = Ok t ->
  decoder.state_ d <> decoder.state.start ->
  decoder.next_state (decoder.state_ d) t = Ok decoder.state.error ->
  (exists s, decoder.next_state decoder.state.start t = Ok s) /\
  (decoder.next_state decoder.state.start t = Ok decoder.state.error ->
   decoder.decode d b =
   Ok (Some decoder.replacement_char_,
       decoder.mk (decoder.code_ d) decoder.state.start
                  decoder.to_deliver.error)) /\
  (decoder.next_state decoder.state.start t = Ok decoder.state.start ->
   decoder.decode d b =
   Ok (Some decoder.replacement_char_,
       decoder.mk (decoder.start_byte_payload (byte_val b) t)
                  decoder.state.start decoder.to_deliver.code_point) /\
   decoder.start_byte_payload (byte_val b) t = byte_val b /\
   decoder.fetch (decoder.mk (decoder.start_byte_payload (byte_val b) t)
                             decoder.state.start
                             decoder.to_deliver.code_point) =
   (Some (byte_val b),
    decoder.mk (byte_val b) decoder.state.start decoder.to_deliver.nothing)) /\
  (forall s,
     decoder.next_state decoder.state.start t = Ok s ->
     s <> decoder.state.error -> s <> decoder.state.start ->
     decoder.decode d b =
     Ok (Some decoder.replacement_char_,
         decoder.mk (decoder.start_byte_payload (byte_val b) t) s
                    decoder.to_deliver.nothing)).
Proof.
  intros Ht Hs Herr.
  assert (Hdec : forall s, decoder.next_state decoder.state.start t = Ok s ->
            decoder.decode d b =
            Ok (Some decoder.replacement_char_,
                match s with
                | decoder.state.error =>
                    decoder.mk (decoder.code_ d) decoder.state.start
                               decoder.to_deliver.error
                | decoder.state.start =>
                    decoder.mk (decoder.start_byte_payload (byte_val b) t)
                               decoder.state.start
                               decoder.to_deliver.code_point
                | _ =>
                    decoder.mk (decoder.start_byte_payload (byte_val b) t) s
                               decoder.to_deliver.nothing
                end)).
  { intros s H. unfold decoder.decode. rewrite Ht. cbn [bind].
    cbn [decoder.set_to_deliver decoder.state_ decoder.code_].
    rewrite Herr. cbn [bind].
    destruct (decoder.state_ d); [contradiction Hs; reflexivity|..];
      rewrite H; destruct s; reflexivity. }
  split; [|split; [|split]].
  - destruct b; injection Ht as <-; eexists; reflexivity.
  - intros H. exact (Hdec _ H).
  - intros H. pose proof (class_zero_payload b t Ht H) as Hp.
    split; [exact (Hdec _ H)|]. split; [exact Hp|].
    rewrite Hp. reflexivity.
  - intros s H Hne Hns. rewrite (Hdec _ H).
    destruct s; try reflexivity; contradiction.
Qed.

Lemma decode_interrupted_witness :
  decoder.decode (decoder.mk 2 decoder.state.next1 decoder.to_deliver.nothing)
                 Byte.x20 =
  Ok (Some decoder.replacement_char_,
      decoder.mk 0x20 decoder.state.start decoder.to_deliver.code_point).
Proof.
  pose proof (decode_interrupted
                (decoder.mk 2 decoder.state.next1 decoder.to_deliver.nothing)
                Byte.x20 0 eq_refl ltac:(discriminate) eq_refl) as H.
  destruct H as [_ [_ [H _]]]. destruct (H eq_refl) as [H1 _]. exact H1.
Defined.

(** C6.  [check_last_error] returns U+FFFD exactly when the state is not
    [start], and nothing exactly when it is; it leaves the decoder as it is,
    so any number of invocations in a row return the same each time. *)
Theorem check_last_error_pure (d : decoder.t) :
  (decoder.check_last_error d = Some 0xFFFD <->
   decoder.state_ d <> decoder.state.start) /\
  (decoder.check_last_error d = None <->
   decoder.state_ d = decoder.state.start) /\
  perform d op_check_last_error = Ok (decoder.check_last_error d, d) /\
  forall n,
    perform_all d (repeat op_check_last_error n) =
    Ok (repeat (decoder.check_last_error d) n, d).
Proof.
  split; [|split; [|split]].
  - unfold decoder.check_last_error.
    destruct (decoder.state_ d); split; intros H;
      first [reflexivity | discriminate H | discriminate
            | exfalso; apply H; reflexivity].
  - unfold decoder.check_last_error.
    destruct (decoder.state_ d); split; intros H;
      first [reflexivity | discriminate H].
  - reflexivity.
  - induction n as [|n IH]; [reflexivity|].
    cbn [repeat perform_all perform bind]. rewrite IH. reflexivity.
Qed.

(** When [decode] returns nothing, nothing is pending either. *)
Lemma decode_nothing_pending (d : decoder.t) (b : Byte.byte) (d' : decoder.t) :
  decoder.decode d b = Ok (None, d') -> decoder.fetch d' = (None, d').
Proof.
  unfold decoder.decode.
  destruct (at_ decoder.char_classes_ (byte_val b)) as [t|];
    [|discriminate]. cbn [bind].
  cbn [decoder.set_to_deliver decoder.state_ decoder.code_].
  destruct (decoder.next_state (decoder.state_ d) t) as [s|];
    [|discriminate]. cbn [bind].
  destruct s; destruct (decoder.state_ d);
    cbn [decoder.set_code decoder.set_state decoder.state_
         decoder.code_ decoder.to_deliver_];
    try discriminate;
    try (intros H; injection H as <-; reflexivity);
    destruct (decoder.next_state decoder.state.start t) as [[]|];
    discriminate.
Qed.

Lemma fetch_again (d : decoder.t) (n : nat) :
  perform_all (snd (decoder.fetch d)) (repeat op_fetch n) =
  Ok (repeat None n, snd (decoder.fetch d)).
Proof.
  induction n as [|n IH]; [reflexivity|].
  cbn [repeat perform_all perform bind].
  change (decoder.fetch (snd (decoder.fetch d)))
    with (@None Z, snd (decoder.fetch d)).
  cbv beta iota. rewrite IH. reflexivity.
Qed.

(** C7.  [fetch] returns what is pending (the accumulator when a code point
    is pending, U+FFFD when an error is, nothing otherwise) and clears it,
    touching nothing else; so after any call, [decode] included, at most the
    first [fetch] returns something and every further [fetch] returns
    nothing.  On the bytes C2, 20: [decode] returns nothing, then U+FFFD,
    and [fetch] then returns 0x20, and nothing the next time. *)
Theorem fetch_drains_pending (d : decoder.t) :
  fst (decoder.fetch d) =
    match decoder.to_deliver_ d with
    | decoder.to_deliver.code_point => Some (decoder.code_ d)
    | decoder.to_deliver.error => Some 0xFFFD
    | decoder.to_deliver.nothing => None
    end /\
  snd (decoder.fetch d) =
    decoder.mk (decoder.code_ d) (decoder.state_ d) decoder.to_deliver.nothing /\
  (forall n,
     perform_all d (repeat op_fetch (S n)) =
     Ok (fst (decoder.fetch d) :: repeat None n, snd (decoder.fetch d))) /\
  (forall b r d',
     decoder.decode d b = Ok (r, d') ->
     (r = None -> fst (decoder.fetch d') = None) /\
     forall n,
       perform_all d (op_decode b :: repeat op_fetch (S n)) =
       Ok (r :: fst (decoder.fetch d') :: repeat None n,
           snd (decoder.fetch d'))) /\
  exists d',
    perform_all decoder.new
                [op_decode Byte.xc2; op_decode Byte.x20; op_fetch; op_fetch] =
    Ok ([None; Some 0xFFFD; Some 0x20; None], d').
Proof.
  assert (Hn : forall d0 n,
             perform_all d0 (repeat op_fetch (S n)) =
             Ok (fst (decoder.fetch d0) :: repeat None n,
                 snd (decoder.fetch d0))).
  { intros d0 n. cbn [repeat perform_all perform bind].
    rewrite (surjective_pairing (decoder.fetch d0)). cbv beta iota.
    cbn [fst snd]. rewrite fetch_again. reflexivity. }
  split; [reflexivity|]. split; [reflexivity|]. split; [apply Hn|].
  split.
  - intros b r d' H. split.
    + intros ->. rewrite (decode_nothing_pending d b d' H). reflexivity.
    + intros n. cbn [perform_all perform bind]. rewrite H. cbn [bind].
      cbv beta iota. rewrite Hn. reflexivity.
  - eexists. reflexivity.
Qed.

(** ** What the decoder keeps between calls *)

Lemma well_kept_new : well_kept decoder.new.
Proof. split; [reflexivity|discriminate]. Qed.

Lemma first_byte_accumulates (b : Byte.byte) (r : unicode.row) :
  unicode.first_byte b = Some r ->
  accumulates (state_of_row r) (lead_payload r b) = true.
Proof.
  destruct b; intros H; try discriminate H; injection H as <-; reflexivity.
Qed.

Lemma is_wanted_trail (s : decoder.state.t) (b : Byte.byte) :
  is_wanted s b = true -> unicode.is_trail b = true.
Proof.
  unfold is_wanted, unicode.is_trail, unicode.in_range.
  destruct s; cbn [wanted fst snd]; lia.
Qed.

Lemma accumulates_bound (s : decoder.state.t) (c : Z) :
  accumulates s c = true -> awaiting s = true -> 0 <= c < 2 ^ 32.
Proof.
  change (2 ^ 32) with 4294967296.
  destruct s; cbn [accumulates awaiting]; intros H Ha;
    try discriminate Ha; lia.
Qed.

Lemma accumulates_after (s : decoder.state.t) (c : Z) (b : Byte.byte) :
  awaiting s = true -> accumulates s c = true -> is_wanted s b = true ->
  accumulates (after s) (c * 64 + (byte_val b - 0x80)) = true /\
  (after s = decoder.state.start ->
   unicode.is_scalar_value (c * 64 + (byte_val b - 0x80))).
Proof.
  unfold is_wanted, unicode.in_range, unicode.is_scalar_value.
  destruct s; cbn [accumulates awaiting after wanted fst snd];
    intros Ha Hc Hb; try discriminate Ha;
    (split; [lia | intros E; first [discriminate E | lia]]).
Qed.

Lemma replacement_is_scalar : unicode.is_scalar_value decoder.replacement_char_.
Proof. unfold unicode.is_scalar_value, decoder.replacement_char_. lia. Qed.

Lemma restarted_well_kept (c : Z) (b : Byte.byte) : well_kept (restarted c b).
Proof.
  unfold restarted.
  destruct (unicode.in_range 0x00 0x7F b) eqn:Ea.
  - apply in_range_spec in Ea.
    split; [reflexivity|]. intros _. split; [reflexivity|exact Ea].
  - destruct (unicode.first_byte b) as [r|] eqn:Ef.
    + split; [exact (first_byte_accumulates b r Ef)|discriminate].
    + split; [reflexivity|discriminate].
Qed.

Lemma decode_error_state (c : Z) (td : decoder.to_deliver.t) (b : Byte.byte) :
  decoder.decode (decoder.mk c decoder.state.error td) b = OutOfRange.
Proof. destruct b; reflexivity. Qed.

(** [decode] on a well-kept decoder returns, keeps the decoder well kept, and
    what it returns is a scalar value. *)
Lemma decode_well_kept (d : decoder.t) (b : Byte.byte) :
  well_kept d ->
  exists r d',
    decoder.decode d b = Ok (r, d') /\ well_kept d' /\ scalar_if_any r.
Proof.
  destruct d as [c s td]. intros [Hacc Htd].
  cbn [decoder.state_ decoder.code_ decoder.to_deliver_] in Hacc, Htd.
  destruct (awaiting s) eqn:Ea.
  - rewrite (decode_awaiting c s td b Ea).
    destruct (is_wanted s b) eqn:Ew.
    + pose proof (accumulates_bound s c Hacc Ea) as Hc.
      rewrite (shifted_add c b Hc (is_wanted_trail s b Ew)).
      destruct (accumulates_after s c b Ea Hacc Ew) as [H1 H2].
      eexists; eexists; split; [reflexivity|]. split.
      * split; [exact H1|discriminate].
      * intros v Hv. destruct (after s) eqn:E; try discriminate Hv.
        injection Hv as <-. apply H2. reflexivity.
    + eexists; eexists; split; [reflexivity|].
      split; [apply restarted_well_kept|].
      intros v Hv. injection Hv as <-. apply replacement_is_scalar.
  - destruct s; try discriminate Ea; [|discriminate Hacc].
    rewrite decode_at_start.
    destruct (unicode.in_range 0x00 0x7F b) eqn:E0.
    + apply in_range_spec in E0.
      eexists; eexists; split; [reflexivity|]. split.
      * split; [reflexivity|discriminate].
      * intros v Hv. injection Hv as <-.
        unfold unicode.is_scalar_value. lia.
    + destruct (unicode.first_byte b) as [r|] eqn:Ef.
      * eexists; eexists; split; [reflexivity|]. split.
        -- split; [exact (first_byte_accumulates b r Ef)|discriminate].
        -- intros v Hv. discriminate Hv.
      * eexists; eexists; split; [reflexivity|]. split.
        -- split; [reflexivity|discriminate].
        -- intros v Hv. injection Hv as <-. apply replacement_is_scalar.
Qed.

Lemma fetch_well_kept (d : decoder.t) :
  well_kept d ->
  well_kept (snd (decoder.fetch d)) /\ scalar_if_any (fst (decoder.fetch d)).
Proof.
  intros [Hacc Htd]. split.
  - split; [exact Hacc|discriminate].
  - intros v Hv. cbn [decoder.fetch fst] in Hv.
    destruct (decoder.to_deliver_ d); try discriminate Hv;
      injection Hv as <-.
    + destruct (Htd eq_refl) as [_ Hc]. unfold unicode.is_scalar_value. lia.
    + apply replacement_is_scalar.
Qed.

Lemma check_last_error_scalar (d : decoder.t) :
  scalar_if_any (decoder.check_last_error d).
Proof.
  intros v Hv. unfold decoder.check_last_error in Hv.
  destruct (decoder.state_ d); try discriminate Hv;
    injection Hv as <-; apply replacement_is_scalar.
Qed.

Lemma perform_well_kept (d : decoder.t) (o : operation) :
  well_kept d ->
  exists r d', perform d o = Ok (r, d') /\ well_kept d' /\ scalar_if_any r.
Proof.
  intros H. destruct o as [b| |]; cbn [perform].
  - exact (decode_well_kept d b H).
  - destruct (fetch_well_kept d H) as [H1 H2].
    exists (fst (decoder.fetch d)), (snd (decoder.fetch d)).
    split; [rewrite <- surjective_pairing; reflexivity|]. split; assumption.
  - exists (decoder.check_last_error d), d.
    split; [reflexivity|]. split; [exact H|apply check_last_error_scalar].
Qed.

Lemma perform_all_well_kept (ops : list operation) (d : decoder.t) :
  well_kept d ->
  exists rs d',
    perform_all d ops = Ok (rs, d') /\ well_kept d' /\ Forall scalar_if_any rs.
Proof.
  revert d. induction ops as [|o ops IH]; intros d H.
  - exists [], d. split; [reflexivity|]. split; [exact H|constructor].
  - destruct (perform_well_kept d o H) as (r & d1 & E1 & H1 & S1).
    destruct (IH d1 H1) as (rs & d2 & E2 & H2 & S2).
    exists (r :: rs), d2. cbn [perform_all]. rewrite E1. cbn [bind].
    rewrite E2. cbn [bind]. split; [reflexivity|].
    split; [exact H2|constructor; assumption].
Qed.

(** ** The decode view *)

Lemma bind_Ok_r {A : Type} (r : result A) : (x <- r ;; Ok x) = r.
Proof. destruct r; reflexivity. Qed.

Lemma yield_Some (v : Z) (r : result (list Z)) :
  yield v (Some r) = Some (rmap (cons v) r).
Proof. destruct r; reflexivity. Qed.

Lemma yield_traverse (v : Z) (fuel : nat) (i : decode_view.iterator) :
  match decode_view.decode i with
  | OutOfRange => Some OutOfRange
  | Ok i' => yield v (decode_view.collect fuel i')
  end = yield v (traverse fuel i).
Proof. unfold traverse. destruct (decode_view.decode i); reflexivity. Qed.

Lemma collect_at_code (fuel : nat) (b : Byte.byte) (rest : list Byte.byte)
      (d : decoder.t) (v : Z) :
  decode_view.collect (S fuel)
    (decode_view.mk_iterator (b :: rest) d v false) =
  match fst (decoder.fetch d) with
  | Some w =>
      yield v (decode_view.collect fuel
                 (decode_view.mk_iterator (b :: rest) (snd (decoder.fetch d))
                                          w false))
  | None =>
      yield v (traverse fuel
                 (decode_view.mk_iterator rest (snd (decoder.fetch d))
                                          v false))
  end.
Proof.
  cbn [decode_view.collect decode_view.is_end decode_view.it_
       decode_view.incr decode_view.has_last_error_ decode_view.deref
       decode_view.code_].
  unfold decode_view.try_decode_one_code_point.
  cbn [decode_view.it_ decode_view.decoder_ decode_view.code_
       decode_view.has_last_error_].
  destruct (decoder.fetch d) as [[w|] d2]; cbn [fst snd].
  - reflexivity.
  - apply yield_traverse.
Qed.

(** Iterating the view gives what the pump gives, with fuel to spare. *)
Lemma traverse_pump (bytes : list Byte.byte) :
  forall (d : decoder.t) (c : Z) (fuel : nat),
    (2 * length bytes + 2 <= fuel)%nat ->
    traverse fuel (decode_view.mk_iterator bytes d c false) =
    Some (pump d bytes).
Proof.
  induction bytes as [|b rest IH]; intros d c fuel Hf.
  - destruct fuel as [|[|fuel]]; [cbn in Hf; lia | cbn in Hf; lia |].
    unfold traverse, decode_view.decode.
    cbn [decode_view.it_ decode_view.decoder_ decode_view.decode_loop
         bind pump].
    destruct (decoder.check_last_error d) as [v|]; reflexivity.
  - cbn [length] in Hf.
    unfold traverse, decode_view.decode.
    cbn [decode_view.it_ decode_view.decoder_ decode_view.decode_loop pump].
    destruct (decoder.decode d b) as [[[v|] d1]|] eqn:E; cbn [bind].
    + destruct fuel as [|fuel]; [lia|].
      cbn [decode_view.has_last_error_]. rewrite collect_at_code.
      destruct (decoder.fetch d1) as [[w|] d2] eqn:F; cbn [fst snd].
      * destruct fuel as [|fuel]; [lia|].
        rewrite collect_at_code.
        assert (F2 : decoder.fetch d2 = (None, d2)).
        { unfold decoder.fetch in F. injection F as _ <-. reflexivity. }
        rewrite F2. cbn [fst snd].
        rewrite (IH d2 w fuel) by lia.
        rewrite !yield_Some. destruct (pump d2 rest); reflexivity.
      * rewrite (IH d2 v fuel) by lia.
        rewrite yield_Some. destruct (pump d2 rest); reflexivity.
    + rewrite (decode_nothing_pending d b d1 E).
      pose proof (IH d1 c fuel ltac:(lia)) as IH1.
      unfold traverse, decode_view.decode in IH1.
      cbn [decode_view.it_ decode_view.decoder_ decode_view.code_
           decode_view.has_last_error_] in IH1 |- *.
      rewrite IH1. cbn [opt_list app]. rewrite bind_Ok_r. reflexivity.
    + reflexivity.
Qed.

Lemma collect_more_fuel (fuel : nat) :
  forall (i : decode_view.iterator) (r : result (list Z)) (fuel' : nat),
    decode_view.collect fuel i = Some r -> (fuel <= fuel')%nat ->
    decode_view.collect fuel' i = Some r.
Proof.
  induction fuel as [|fuel IH]; intros i r fuel' H Hle; [discriminate H|].
  destruct fuel' as [|fuel']; [lia|].
  cbn [decode_view.collect] in H |- *.
  destruct (decode_view.is_end i); [exact H|].
  destruct (decode_view.incr i) as [i'|]; [|exact H].
  destruct (decode_view.collect fuel i') as [r'|] eqn:E; [|discriminate H].
  rewrite (IH i' r' fuel' E) by lia. exact H.
Qed.

Lemma elements_traverse (fuel : nat) (view_ : list Byte.byte) :
  decode_view.elements fuel view_ =
  traverse fuel (decode_view.mk_iterator view_ decoder.new 0 false).
Proof. reflexivity. Qed.

Lemma elements_pump (fuel : nat) (view_ : list Byte.byte) (r : result (list Z)) :
  decode_view.elements fuel view_ = Some r -> r = pump decoder.new view_.
Proof.
  intros H.
  pose proof (traverse_pump view_ decoder.new 0
                (Nat.max fuel (2 * length view_ + 2)) ltac:(lia)) as Hp.
  rewrite elements_traverse in H. unfold traverse in H, Hp.
  destruct (decode_view.decode _) as [i|].
  - rewrite (collect_more_fuel fuel i r _ H) in Hp by lia.
    injection Hp as <-. reflexivity.
  - congruence.
Qed.

(** The pump on a well-kept decoder returns, and returns scalar values. *)
Lemma pump_well_kept (bytes : list Byte.byte) :
  forall d : decoder.t,
    well_kept d ->
    exists out,
      pump d bytes = Ok out /\ Forall unicode.is_scalar_value out.
Proof.
  assert (Hopt : forall r, scalar_if_any r ->
                           Forall unicode.is_scalar_value (opt_list r)).
  { intros [v|] H; [constructor; [apply H; reflexivity|constructor]
                   |constructor]. }
  induction bytes as [|b rest IH]; intros d H.
  - eexists. split; [reflexivity|].
    apply Hopt, check_last_error_scalar.
  - destruct (decode_well_kept d b H) as (r & d1 & E & H1 & S1).
    destruct (fetch_well_kept d1 H1) as [H2 S2].
    destruct (IH _ H2) as (out & Eo & So).
    cbn [pump]. rewrite E. cbn [bind].
    rewrite (surjective_pairing (decoder.fetch d1)). cbv beta iota.
    rewrite Eo. cbn [bind]. eexists. split; [reflexivity|].
    apply Forall_app; split; [apply Hopt, S1|].
    apply Forall_app; split; [apply Hopt, S2|exact So].
Qed.

Lemma pump_drive (bytes : list Byte.byte) :
  forall d : decoder.t, pump d bytes = drive d bytes.
Proof.
  unfold drive.
  induction bytes as [|b rest IH]; intros d.
  - cbn [pump run bind emitted flat_map returned]. rewrite app_nil_r.
    reflexivity.
  - cbn [pump run].
    destruct (decoder.decode d b) as [[[v|] d1]|] eqn:E; cbn [bind].
    + destruct (decoder.fetch d1) as [f d2]. rewrite IH.
      destruct (run d2 rest); reflexivity.
    + rewrite (decode_nothing_pending d b d1 E). rewrite IH.
      destruct (run d1 rest); reflexivity.
    + reflexivity.
Qed.

(** C3.  Iterating the view over a byte range gives the code points of the
    pump on a fresh decoder (every byte to [decode], its value if any, then
    the value of [fetch] if any; after the last byte the value of
    [check_last_error] if any), in at most [2 * length + 2] turns of the
    loop and whatever the fuel that suffices; the pump that invokes [fetch]
    only after a [decode] that returned something gives the same.  The second
    code point of a byte with two outputs is kept (bytes C2, 20), and an
    iterator equals the end sentinel exactly when the byte iterator is at
    its sentinel and [has_last_error_] is false. *)
Theorem decode_view_elements (view_ : list Byte.byte) :
  (exists out,
     pump decoder.new view_ = Ok out /\
     forall fuel,
       (2 * length view_ + 2 <= fuel)%nat ->
       decode_view.elements fuel view_ = Some (Ok out)) /\
  (forall fuel r,
     decode_view.elements fuel view_ = Some r -> r = pump decoder.new view_) /\
  pump decoder.new view_ = drive decoder.new view_ /\
  (forall i,
     decode_view.is_end i = true <->
     decode_view.it_ i = [] /\ decode_view.has_last_error_ i = false) /\
  decode_view.elements 4 [Byte.xc2; Byte.x20] = Some (Ok [0xFFFD; 0x20]).
Proof.
  split; [|split; [|split; [|split]]].
  - destruct (pump_well_kept view_ decoder.new well_kept_new) as (out & E & _).
    exists out. split; [exact E|]. intros fuel Hf.
    rewrite elements_traverse, traverse_pump by exact Hf.
    rewrite E. reflexivity.
  - intros fuel r. apply elements_pump.
  - apply pump_drive.
  - intros i. unfold decode_view.is_end.
    destruct (decode_view.it_ i) as [|b rest].
    + destruct (decode_view.has_last_error_ i); cbn [negb]; split.
      * discriminate.
      * intros [_ H]. discriminate H.
      * intros _. split; reflexivity.
      * reflexivity.
    + split; [discriminate|]. intros [H _]. discriminate H.
  - reflexivity.
Qed.

Lemma at_in_range {A : Type} (a : list A) (i : Z) :
  0 <= i < Z.of_nat (length a) -> exists x, at_ a i = Ok x.
Proof.
  intros Hi. unfold at_.
  destruct (i <? 0) eqn:E; [lia|].
  destruct (nth_error a (Z.to_nat i)) as [x|] eqn:En.
  - exists x. reflexivity.
  - apply nth_error_None in En. lia.
Qed.

Lemma class_bound (b : Byte.byte) :
  exists t, at_ decoder.char_classes_ (byte_val b) = Ok t /\ 0 <= t < 12.
Proof. destruct b; eexists; (split; [reflexivity|lia]). Qed.

(** C9.  After any sequence of calls on a fresh decoder, none of which
    fails, the stored state is not [error], and for every byte the class
    looked up is below 12, the index into the 96 entries of [fsm_] is in
    range, and [decode] returns. *)
Theorem decoder_never_fails (ops : list operation) :
  exists rs d,
    perform_all decoder.new ops = Ok (rs, d) /\
    decoder.state_ d <> decoder.state.error /\
    forall b : Byte.byte,
      exists t,
        at_ decoder.char_classes_ (byte_val b) = Ok t /\
        0 <= t < 12 /\
        0 <= decoder.state.to_uint8 (decoder.state_ d) * decoder.num_classes_ + t
          < Z.of_nat (length decoder.fsm_) /\
        Z.of_nat (length decoder.fsm_) = 96 /\
        (exists s, decoder.next_state (decoder.state_ d) t = Ok s) /\
        (exists r d', decoder.decode d b = Ok (r, d')) /\
        (exists r d', perform d op_fetch = Ok (r, d')) /\
        (exists r d', perform d op_check_last_error = Ok (r, d')).
Proof.
  destruct (perform_all_well_kept ops decoder.new well_kept_new)
    as (rs & d & E & H & _).
  exists rs, d. split; [exact E|].
  assert (Hs : decoder.state_ d <> decoder.state.error).
  { destruct H as [Hacc _]. intros Es. rewrite Es in Hacc. discriminate Hacc. }
  split; [exact Hs|]. intros b.
  destruct (class_bound b) as (t & Et & Ht).
  exists t. split; [exact Et|]. split; [exact Ht|].
  assert (Hi : 0 <= decoder.state.to_uint8 (decoder.state_ d)
                    * decoder.num_classes_ + t
               < Z.of_nat (length decoder.fsm_)).
  { change (Z.of_nat (length decoder.fsm_)) with 96.
    unfold decoder.num_classes_.
    destruct (decoder.state_ d); cbn [decoder.state.to_uint8];
      first [lia | contradiction Hs; reflexivity]. }
  split; [exact Hi|]. split; [reflexivity|].
  split; [exact (at_in_range _ _ Hi)|].
  split; [|split].
  - destruct (decode_well_kept d b H) as (r & d' & Ed & _).
    exists r, d'. exact Ed.
  - eexists; eexists; reflexivity.
  - eexists; eexists; reflexivity.
Qed.

(** C5.  Whatever the calls made on a fresh decoder, every value that
    [decode], [fetch] or [check_last_error] returns is a scalar value: at
    most U+10FFFF and outside D800..DFFF.  So is every code point of the
    pump over a byte sequence, and every element of the view. *)
Theorem produced_values_are_scalar (ops : list operation)
        (view_ : list Byte.byte) :
  (exists rs d,
     perform_all decoder.new ops = Ok (rs, d) /\
     forall v, In (Some v) rs ->
               0 <= v <= 0x10FFFF /\ ~ (0xD800 <= v <= 0xDFFF)) /\
  (exists out,
     drive decoder.new view_ = Ok out /\
     Forall unicode.is_scalar_value out /\
     forall fuel r, decode_view.elements fuel view_ = Some r -> r = Ok out).
Proof.
  split.
  - destruct (perform_all_well_kept ops decoder.new well_kept_new)
      as (rs & d & E & _ & S).
    exists rs, d. split; [exact E|]. intros v Hv.
    rewrite Forall_forall in S. exact (S _ Hv v eq_refl).
  - destruct (pump_well_kept view_ decoder.new well_kept_new)
      as (out & E & S).
    exists out. rewrite <- pump_drive. split; [exact E|]. split; [exact S|].
    intros fuel r H. rewrite (elements_pump fuel view_ r H). exact E.
Qed.

Lemma ascii_class (b : Byte.byte) :
  unicode.in_range 0x00 0x7F b = true ->
  at_ decoder.char_classes_ (byte_val b) = Ok 0.
Proof. destruct b; intros H; try discriminate H; reflexivity. Qed.

(** C10.  After any calls on a fresh decoder, a pending code point is at
    most U+007F, so [fetch] returns U+FFFD or a value up to 0x7F or nothing.
    A [decode] that leaves a code point pending was given a byte of class 0
    in a state other than [start]; it returned U+FFFD and the pending code
    point is that byte. *)
Theorem pending_code_point_is_ascii (ops : list operation) :
  (exists rs d,
     perform_all decoder.new ops = Ok (rs, d) /\
     (decoder.to_deliver_ d = decoder.to_deliver.code_point ->
      0 <= decoder.code_ d <= 0x7F) /\
     (forall v, fst (decoder.fetch d) = Some v ->
                v = 0xFFFD \/ 0 <= v <= 0x7F)) /\
  (forall d b r d',
     decoder.decode d b = Ok (r, d') ->
     decoder.to_deliver_ d' = decoder.to_deliver.code_point ->
     at_ decoder.char_classes_ (byte_val b) = Ok 0 /\
     decoder.state_ d <> decoder.state.start /\
     r = Some 0xFFFD /\
     decoder.code_ d' = byte_val b /\
     0 <= byte_val b <= 0x7F).
Proof.
  split.
  - destruct (perform_all_well_kept ops decoder.new well_kept_new)
      as (rs & d & E & [_ H] & _).
    exists rs, d. split; [exact E|]. split.
    + intros Hp. exact (proj2 (H Hp)).
    + intros v Hv. cbn [decoder.fetch fst] in Hv.
      destruct (decoder.to_deliver_ d); try discriminate Hv;
        injection Hv as <-.
      * right. exact (proj2 (H eq_refl)).
      * left. reflexivity.
  - intros [c s td] b r d' E Hp.
    destruct (awaiting s) eqn:Ea.
    + rewrite (decode_awaiting c s td b Ea) in E.
      destruct (is_wanted s b).
      * injection E as _ <-. discriminate Hp.
      * injection E as <- <-. unfold restarted in Hp |- *.
        destruct (unicode.in_range 0x00 0x7F b) eqn:E0.
        -- split; [exact (ascii_class b E0)|].
           split; [destruct s; discriminate|].
           split; [reflexivity|]. split; [reflexivity|].
           apply in_range_spec. exact E0.
        -- destruct (unicode.first_byte b); discriminate Hp.
    + destruct s; try discriminate Ea.
      * rewrite decode_at_start in E.
        destruct (unicode.in_range 0x00 0x7F b);
          [|destruct (unicode.first_byte b)];
          injection E as _ <-; discriminate Hp.
      * rewrite decode_error_state in E. discriminate E.
Qed.

(** ** The pump, by state and byte range *)

Ltac fetched :=
  cbn [bind]; unfold decoder.fetch, decoder.set_to_deliver;
  cbn [bind decoder.to_deliver_ decoder.code_ decoder.state_ opt_list app].

Lemma pump_at_end (c : Z) (s : decoder.state.t) (td : decoder.to_deliver.t) :
  awaiting s = true ->
  pump (decoder.mk c s td) [] = Ok [decoder.replacement_char_].
Proof. destruct s; intros H; try discriminate H; reflexivity. Qed.

(** From [start], neither the accumulator nor what is pending matters. *)
Lemma pump_from_start (c : Z) (td : decoder.to_deliver.t)
      (bytes : list Byte.byte) :
  pump (decoder.mk c decoder.state.start td) bytes = pump decoder.new bytes.
Proof.
  revert c td. induction bytes as [|b rest IH]; intros c td; [reflexivity|].
  unfold decoder.new. cbn [pump]. rewrite !decode_at_start.
  destruct (unicode.in_range 0x00 0x7F b); [reflexivity|].
  destruct (unicode.first_byte b); [reflexivity|].
  fetched.
  rewrite (IH c), (IH 0). reflexivity.
Qed.

Lemma pump_ascii (b : Byte.byte) (rest : list Byte.byte) :
  unicode.in_range 0x00 0x7F b = true ->
  pump decoder.new (b :: rest) = rmap (cons (byte_val b)) (pump decoder.new rest).
Proof.
  intros H. unfold decoder.new at 1. cbn [pump].
  rewrite decode_at_start, H.
  fetched.
  rewrite pump_from_start. reflexivity.
Qed.

Lemma pump_not_first (b : Byte.byte) (rest : list Byte.byte) :
  unicode.in_range 0x00 0x7F b = false -> unicode.first_byte b = None ->
  pump decoder.new (b :: rest) =
  rmap (cons decoder.replacement_char_) (pump decoder.new rest).
Proof.
  intros H0 H1. unfold decoder.new at 1. cbn [pump].
  rewrite decode_at_start, H0, H1.
  fetched.
  rewrite pump_from_start. reflexivity.
Qed.

Lemma pump_first (b : Byte.byte) (r : unicode.row) (rest : list Byte.byte) :
  unicode.in_range 0x00 0x7F b = false -> unicode.first_byte b = Some r ->
  pump decoder.new (b :: rest) =
  pump (decoder.mk (lead_payload r b) (state_of_row r)
                   decoder.to_deliver.nothing) rest.
Proof.
  intros H0 H1. unfold decoder.new at 1. cbn [pump].
  rewrite decode_at_start, H0, H1.
  fetched.
  apply bind_Ok_r.
Qed.

Lemma pump_wanted (c : Z) (s : decoder.state.t) (td : decoder.to_deliver.t)
      (b : Byte.byte) (rest : list Byte.byte) :
  awaiting s = true -> is_wanted s b = true ->
  pump (decoder.mk c s td) (b :: rest) =
  match after s with
  | decoder.state.start => rmap (cons (shifted c b)) (pump decoder.new rest)
  | s' => pump (decoder.mk (shifted c b) s' decoder.to_deliver.nothing) rest
  end.
Proof.
  intros Ha Hw. cbn [pump]. rewrite (decode_awaiting c s td b Ha), Hw.
  fetched.
  destruct s; try discriminate Ha; cbn [after opt_list app];
    first [rewrite pump_from_start; reflexivity | apply bind_Ok_r].
Qed.

(** An interrupted sequence gives one U+FFFD, and the interrupting byte is
    then treated as a fresh decoder treats it. *)
Lemma pump_interrupted (c : Z) (s : decoder.state.t) (td : decoder.to_deliver.t)
      (b : Byte.byte) (rest : list Byte.byte) :
  awaiting s = true -> is_wanted s b = false ->
  pump (decoder.mk c s td) (b :: rest) =
  rmap (cons decoder.replacement_char_) (pump decoder.new (b :: rest)).
Proof.
  intros Ha Hw. unfold decoder.new at 1. cbn [pump].
  rewrite (decode_awaiting c s td b Ha), Hw, decode_at_start.
  unfold restarted.
  destruct (unicode.in_range 0x00 0x7F b).
  - fetched.
    rewrite !pump_from_start.
    destruct (pump decoder.new rest); reflexivity.
  - destruct (unicode.first_byte b).
    + fetched.
      destruct (pump _ rest); reflexivity.
    + fetched.
      rewrite !pump_from_start.
      destruct (pump decoder.new rest); reflexivity.
Qed.

(** ** Scalar values, accumulated and by bit distribution *)

Lemma land_ones_bound (a n : Z) : 0 <= n -> 0 <= Z.land a (Z.ones n) < 2 ^ n.
Proof.
  intros Hn. rewrite Z.land_ones by exact Hn.
  apply Z.mod_pos_bound. apply Z.pow_pos_nonneg; lia.
Qed.

Lemma low6_bound (b : Byte.byte) : 0 <= unicode.low6 b < 64.
Proof. exact (land_ones_bound (byte_val b) 6 ltac:(lia)). Qed.

Lemma scalar2_sum (b1 b2 : Byte.byte) :
  unicode.scalar2 b1 b2 =
  Z.land (byte_val b1) 0x1F * 64 + unicode.low6 b2.
Proof.
  unfold unicode.scalar2. pose proof (low6_bound b2).
  rewrite lor_shiftl_add by (change (2 ^ 6) with 64; lia). reflexivity.
Qed.

Lemma scalar3_sum (b1 b2 b3 : Byte.byte) :
  unicode.scalar3 b1 b2 b3 =
  (Z.land (byte_val b1) 0x0F * 64 + unicode.low6 b2) * 64 + unicode.low6 b3.
Proof.
  unfold unicode.scalar3.
  pose proof (low6_bound b2). pose proof (low6_bound b3).
  set (p := Z.land (byte_val b1) 0x0F).
  rewrite (Z.shiftl_mul_pow2 (unicode.low6 b2) 6) by lia.
  change (2 ^ 6) with 64.
  rewrite (lor_shiftl_add p) by (change (2 ^ 12) with 4096; lia).
  replace (p * 2 ^ 12 + unicode.low6 b2 * 64)
    with (Z.shiftl (p * 64 + unicode.low6 b2) 6)
    by (rewrite Z.shiftl_mul_pow2 by lia;
        change (2 ^ 6) with 64; change (2 ^ 12) with 4096; lia).
  rewrite lor_shiftl_add by (change (2 ^ 6) with 64; lia). reflexivity.
Qed.

Lemma scalar4_sum (b1 b2 b3 b4 : Byte.byte) :
  unicode.scalar4 b1 b2 b3 b4 =
  ((Z.land (byte_val b1) 0x07 * 64 + unicode.low6 b2) * 64
   + unicode.low6 b3) * 64 + unicode.low6 b4.
Proof.
  unfold unicode.scalar4.
  pose proof (low6_bound b2). pose proof (low6_bound b3).
  pose proof (low6_bound b4).
  set (p := Z.land (byte_val b1) 0x07).
  rewrite (Z.shiftl_mul_pow2 (unicode.low6 b2) 12) by lia.
  rewrite (Z.shiftl_mul_pow2 (unicode.low6 b3) 6) by lia.
  change (2 ^ 6) with 64. change (2 ^ 12) with 4096.
  rewrite (lor_shiftl_add p) by (change (2 ^ 18) with 262144; lia).
  replace (p * 2 ^ 18 + unicode.low6 b2 * 4096)
    with (Z.shiftl (p * 64 + unicode.low6 b2) 12)
    by (rewrite Z.shiftl_mul_pow2 by lia;
        change (2 ^ 18) with 262144; change (2 ^ 12) with 4096; lia).
  rewrite lor_shiftl_add by (change (2 ^ 12) with 4096; lia).
  replace ((p * 64 + unicode.low6 b2) * 2 ^ 12 + unicode.low6 b3 * 64)
    with (Z.shiftl ((p * 64 + unicode.low6 b2) * 64 + unicode.low6 b3) 6)
    by (rewrite Z.shiftl_mul_pow2 by lia;
        change (2 ^ 6) with 64; change (2 ^ 12) with 4096; lia).
  rewrite lor_shiftl_add by (change (2 ^ 6) with 64; lia). reflexivity.
Qed.

Lemma lead_payload_bound (r : unicode.row) (b : Byte.byte) :
  0 <= lead_payload r b < 32.
Proof.
  unfold lead_payload.
  destruct r; cbn [lead_mask unicode.more_bytes].
  - pose proof (land_ones_bound (byte_val b) 5 ltac:(lia)) as H.
    change (Z.ones 5) with 0x1F in H. change (2 ^ 5) with 32 in H. exact H.
  - pose proof (land_ones_bound (byte_val b) 4 ltac:(lia)) as H.
    change (Z.ones 4) with 0x0F in H. change (2 ^ 4) with 16 in H. lia.
  - pose proof (land_ones_bound (byte_val b) 4 ltac:(lia)) as H.
    change (Z.ones 4) with 0x0F in H. change (2 ^ 4) with 16 in H. lia.
  - pose proof (land_ones_bound (byte_val b) 4 ltac:(lia)) as H.
    change (Z.ones 4) with 0x0F in H. change (2 ^ 4) with 16 in H. lia.
  - pose proof (land_ones_bound (byte_val b) 4 ltac:(lia)) as H.
    change (Z.ones 4) with 0x0F in H. change (2 ^ 4) with 16 in H. lia.
  - pose proof (land_ones_bound (byte_val b) 3 ltac:(lia)) as H.
    change (Z.ones 3) with 0x07 in H. change (2 ^ 3) with 8 in H. lia.
  - pose proof (land_ones_bound (byte_val b) 3 ltac:(lia)) as H.
    change (Z.ones 3) with 0x07 in H. change (2 ^ 3) with 8 in H. lia.
  - pose proof (land_ones_bound (byte_val b) 3 ltac:(lia)) as H.
    change (Z.ones 3) with 0x07 in H. change (2 ^ 3) with 8 in H. lia.
Qed.

(** The accumulator after one, two and three accepted continuation bytes. *)
Lemma shifted1 (p : Z) (b2 : Byte.byte) :
  0 <= p < 32 -> unicode.is_trail b2 = true ->
  shifted p b2 = p * 64 + unicode.low6 b2.
Proof.
  intros Hp H2. rewrite (low6_trail b2 H2).
  apply shifted_add; [change (2 ^ 32) with 4294967296; lia|exact H2].
Qed.

Lemma shifted2 (p : Z) (b2 b3 : Byte.byte) :
  0 <= p < 32 -> unicode.is_trail b2 = true -> unicode.is_trail b3 = true ->
  shifted (shifted p b2) b3 =
  (p * 64 + unicode.low6 b2) * 64 + unicode.low6 b3.
Proof.
  intros Hp H2 H3. rewrite (shifted1 p b2 Hp H2).
  pose proof (low6_bound b2). rewrite (low6_trail b3 H3).
  apply shifted_add; [change (2 ^ 32) with 4294967296; lia|exact H3].
Qed.

Lemma shifted3 (p : Z) (b2 b3 b4 : Byte.byte) :
  0 <= p < 32 -> unicode.is_trail b2 = true -> unicode.is_trail b3 = true ->
  unicode.is_trail b4 = true ->
  shifted (shifted (shifted p b2) b3) b4 =
  ((p * 64 + unicode.low6 b2) * 64 + unicode.low6 b3) * 64 + unicode.low6 b4.
Proof.
  intros Hp H2 H3 H4. rewrite (shifted2 p b2 b3 Hp H2 H3).
  pose proof (low6_bound b2). pose proof (low6_bound b3).
  rewrite (low6_trail b4 H4).
  apply shifted_add; [change (2 ^ 32) with 4294967296; lia|exact H4].
Qed.

(** ** The pump against the Unicode reference *)

Lemma is_second_wanted (r : unicode.row) (b : Byte.byte) :
  unicode.is_second r b = is_wanted (state_of_row r) b.
Proof. destruct r; reflexivity. Qed.

Lemma awaiting_row (r : unicode.row) : awaiting (state_of_row r) = true.
Proof. destruct r; reflexivity. Qed.

(** The pump of a fresh decoder converts a byte sequence as the standard
    says: by induction on a bound of the length, following the split into
    subparts. *)
Lemma pump_unicode (n : nat) :
  forall bytes : list Byte.byte,
    (length bytes <= n)%nat ->
    pump decoder.new bytes = Ok (unicode.decode bytes).
Proof.
  induction n as [|n IH]; intros bytes Hn.
  - destruct bytes; [reflexivity|cbn in Hn; lia].
  - destruct bytes as [|b1 after1]; [reflexivity|]. cbn [length] in Hn.
    unfold unicode.decode. cbn [unicode.subparts].
    destruct (unicode.in_range 0x00 0x7F b1) eqn:E0.
    { rewrite (pump_ascii b1 after1 E0), IH by lia. reflexivity. }
    destruct (unicode.first_byte b1) as [r|] eqn:E1.
    2: { rewrite (pump_not_first b1 after1 E0 E1), IH by lia. reflexivity. }
    rewrite (pump_first b1 r after1 E0 E1).
    pose proof (lead_payload_bound r b1) as Hp.
    destruct after1 as [|b2 after2].
    { rewrite pump_at_end by apply awaiting_row. reflexivity. }
    cbn [length] in Hn.
    rewrite is_second_wanted.
    destruct (is_wanted (state_of_row r) b2) eqn:E2; cbn [negb].
    2: { rewrite pump_interrupted by (first [apply awaiting_row|exact E2]).
         rewrite IH by (cbn [length]; lia). reflexivity. }
    rewrite pump_wanted by (first [apply awaiting_row|exact E2]).
    pose proof (is_wanted_trail _ _ E2) as T2.
    unfold lead_payload in *.
    assert (IH2 : pump decoder.new after2 = Ok (unicode.decode after2))
      by (apply IH; lia).
    destruct r; cbn [state_of_row after unicode.more_bytes lead_mask] in *.
    { rewrite IH2, (shifted1 _ b2 Hp T2), scalar2_sum. reflexivity. }
    all: destruct after2 as [|b3 after3];
      [rewrite pump_at_end by reflexivity; reflexivity|];
      cbn [length] in Hn;
      assert (IH3 : pump decoder.new after3 = Ok (unicode.decode after3))
        by (apply IH; lia).
    all: match goal with
         | |- pump (decoder.mk _ ?s _) _ = _ =>
             change (unicode.is_trail b3) with (is_wanted s b3);
             destruct (is_wanted s b3) eqn:E3; cbn [negb];
             [ rewrite pump_wanted by (first [reflexivity|exact E3]);
               pose proof (is_wanted_trail _ _ E3) as T3; cbn [after]
             | rewrite pump_interrupted by (first [reflexivity|exact E3]);
               rewrite IH2; reflexivity ]
         end.
    1-4: rewrite IH3, (shifted2 _ b2 b3 Hp T2 T3), scalar3_sum; reflexivity.
    all: destruct after3 as [|b4 after4];
      [rewrite pump_at_end by reflexivity; reflexivity|];
      cbn [length] in Hn;
      change (unicode.is_trail b4) with (is_wanted decoder.state.next1 b4);
      destruct (is_wanted decoder.state.next1 b4) eqn:E4; cbn [negb];
      [ rewrite pump_wanted by (first [reflexivity|exact E4]);
        pose proof (is_wanted_trail _ _ E4) as T4; cbn [after];
        rewrite IH by lia;
        rewrite (shifted3 _ b2 b3 b4 Hp T2 T3 T4), scalar4_sum; reflexivity
      | rewrite pump_interrupted by (first [reflexivity|exact E4]);
        rewrite IH3; reflexivity ].
Qed.

Lemma subparts_concat (n : nat) :
  forall bytes : list Byte.byte,
    (length bytes <= n)%nat ->
    concat (map unicode.bytes_of (unicode.subparts bytes)) = bytes.
Proof.
  induction n as [|n IH]; intros bytes Hn.
  - destruct bytes; [reflexivity|cbn in Hn; lia].
  - destruct bytes as [|b1 after1]; [reflexivity|]. cbn [length] in Hn.
    cbn [unicode.subparts].
    destruct (unicode.in_range 0x00 0x7F b1);
      [cbn [map concat unicode.bytes_of app]; rewrite IH by lia;
       reflexivity|].
    destruct (unicode.first_byte b1) as [r|];
      [|cbn [map concat unicode.bytes_of app]; rewrite IH by lia;
        reflexivity].
    destruct after1 as [|b2 after2]; [reflexivity|]. cbn [length] in Hn.
    destruct (negb (unicode.is_second r b2));
      [cbn [map concat unicode.bytes_of app];
       rewrite IH by (cbn [length]; lia); reflexivity|].
    destruct (unicode.more_bytes r) as [|more];
      [cbn [map concat unicode.bytes_of app]; rewrite IH by lia;
       reflexivity|].
    destruct after2 as [|b3 after3]; [reflexivity|]. cbn [length] in Hn.
    destruct (negb (unicode.is_trail b3));
      [cbn [map concat unicode.bytes_of app];
       rewrite IH by (cbn [length]; lia); reflexivity|].
    destruct more as [|more];
      [cbn [map concat unicode.bytes_of app]; rewrite IH by lia;
       reflexivity|].
    destruct after3 as [|b4 after4]; [reflexivity|]. cbn [length] in Hn.
    destruct (negb (unicode.is_trail b4));
      cbn [map concat unicode.bytes_of app];
      rewrite IH by (cbn [length]; lia); reflexivity.
Qed.

(** ** The recorded calls on well-formed sequences *)

Lemma first_byte_not_ascii (b : Byte.byte) (r : unicode.row) :
  unicode.first_byte b = Some r -> unicode.in_range 0x00 0x7F b = false.
Proof. destruct b; intros H; try discriminate H; reflexivity. Qed.

Lemma run_from_start (c : Z) (td : decoder.to_deliver.t)
      (bytes : list Byte.byte) :
  run (decoder.mk c decoder.state.start td) bytes = run decoder.new bytes.
Proof.
  revert c td. induction bytes as [|b rest IH]; intros c td; [reflexivity|].
  unfold decoder.new. cbn [run]. rewrite !decode_at_start.
  destruct (unicode.in_range 0x00 0x7F b); [reflexivity|].
  destruct (unicode.first_byte b); [reflexivity|].
  fetched. rewrite (IH c), (IH 0). reflexivity.
Qed.

Lemma run_ascii (b : Byte.byte) (rest : list Byte.byte) :
  unicode.in_range 0x00 0x7F b = true ->
  run decoder.new (b :: rest) =
  rmap (app (calls_for [b] (byte_val b))) (run decoder.new rest).
Proof.
  intros H. unfold decoder.new at 1. cbn [run].
  rewrite decode_at_start, H. fetched.
  rewrite run_from_start. reflexivity.
Qed.

Lemma run_first (b : Byte.byte) (r : unicode.row) (rest : list Byte.byte) :
  unicode.first_byte b = Some r ->
  run decoder.new (b :: rest) =
  rmap (cons (decode_call b None))
       (run (decoder.mk (lead_payload r b) (state_of_row r)
                        decoder.to_deliver.nothing) rest).
Proof.
  intros H1. unfold decoder.new at 1. cbn [run].
  rewrite decode_at_start, (first_byte_not_ascii b r H1), H1. reflexivity.
Qed.

Lemma run_wanted (c : Z) (s : decoder.state.t) (td : decoder.to_deliver.t)
      (b : Byte.byte) (rest : list Byte.byte) :
  awaiting s = true -> is_wanted s b = true ->
  run (decoder.mk c s td) (b :: rest) =
  match after s with
  | decoder.state.start =>
      rmap (app (calls_for [b] (shifted c b))) (run decoder.new rest)
  | s' =>
      rmap (cons (decode_call b None))
           (run (decoder.mk (shifted c b) s' decoder.to_deliver.nothing) rest)
  end.
Proof.
  intros Ha Hw. cbn [run]. rewrite (decode_awaiting c s td b Ha), Hw.
  destruct s; try discriminate Ha; cbn [after]; fetched;
    first [rewrite run_from_start; reflexivity | reflexivity].
Qed.

Lemma rmap_rmap {A B C : Type} (f : A -> B) (g : B -> C) (r : result A) :
  rmap g (rmap f r) = rmap (fun x => g (f x)) r.
Proof. destruct r; reflexivity. Qed.

Lemma run_well_formed (bytes : list Byte.byte) (c : Z)
      (rest : list Byte.byte) :
  unicode.well_formed_sequence bytes c ->
  run decoder.new (bytes ++ rest) =
  rmap (app (calls_for bytes c)) (run decoder.new rest).
Proof.
  destruct bytes as [|b1 [|b2 [|b3 [|b4 [|b5 more]]]]];
    cbn [unicode.well_formed_sequence app]; try contradiction.
  - intros [H ->]. apply run_ascii. exact H.
  - intros (r & H1 & Hm & H2 & ->).
    rewrite is_second_wanted in H2.
    pose proof (lead_payload_bound r b1) as Hp.
    pose proof (is_wanted_trail _ _ H2) as T2.
    rewrite (run_first b1 r _ H1).
    rewrite run_wanted by (first [apply awaiting_row|exact H2]).
    unfold lead_payload in *.
    destruct r; try discriminate Hm; cbn [state_of_row after lead_mask unicode.more_bytes] in *.
    rewrite (shifted1 _ b2 Hp T2), scalar2_sum, rmap_rmap. reflexivity.
  - intros (r & H1 & Hm & H2 & T3 & ->).
    rewrite is_second_wanted in H2.
    pose proof (lead_payload_bound r b1) as Hp.
    pose proof (is_wanted_trail _ _ H2) as T2.
    rewrite (run_first b1 r _ H1).
    rewrite run_wanted by (first [apply awaiting_row|exact H2]).
    unfold lead_payload in *.
    destruct r; try discriminate Hm; cbn [state_of_row after lead_mask unicode.more_bytes] in *.
    all: rewrite run_wanted by (first [reflexivity|exact T3]); cbn [after];
      rewrite (shifted2 _ b2 b3 Hp T2 T3), scalar3_sum, !rmap_rmap; reflexivity.
  - intros (r & H1 & Hm & H2 & T3 & T4 & ->).
    rewrite is_second_wanted in H2.
    pose proof (lead_payload_bound r b1) as Hp.
    pose proof (is_wanted_trail _ _ H2) as T2.
    rewrite (run_first b1 r _ H1).
    rewrite run_wanted by (first [apply awaiting_row|exact H2]).
    unfold lead_payload in *.
    destruct r; try discriminate Hm; cbn [state_of_row after lead_mask unicode.more_bytes] in *.
    all: rewrite run_wanted by (first [reflexivity|exact T3]); cbn [after];
      rewrite run_wanted by (first [reflexivity|exact T4]); cbn [after];
      rewrite (shifted3 _ b2 b3 b4 Hp T2 T3 T4), scalar4_sum, !rmap_rmap;
      reflexivity.
Qed.

(** ** The encoding of a scalar value is a well-formed sequence *)

Lemma byte_val_lor (k n x : Z) :
  0 <= n -> 0 <= x < 2 ^ n -> 0 <= k * 2 ^ n + x < 256 ->
  byte_val (unicode.to_byte (Z.lor (Z.shiftl k n) x)) = k * 2 ^ n + x.
Proof.
  intros Hn Hx Hb. rewrite lor_shiftl_add by assumption.
  apply byte_val_to_byte. exact Hb.
Qed.

Lemma trail_byte_val (x : Z) :
  0 <= x < 64 -> byte_val (unicode.to_byte (Z.lor 0x80 x)) = 0x80 + x.
Proof.
  intros Hx.
  apply (byte_val_lor 2 6 x); [lia | exact Hx | change (2 ^ 6) with 64; lia].
Qed.

Lemma lead2_byte_val (x : Z) :
  0 <= x < 32 -> byte_val (unicode.to_byte (Z.lor 0xC0 x)) = 0xC0 + x.
Proof.
  intros Hx.
  apply (byte_val_lor 6 5 x); [lia | exact Hx | change (2 ^ 5) with 32; lia].
Qed.

Lemma lead3_byte_val (x : Z) :
  0 <= x < 16 -> byte_val (unicode.to_byte (Z.lor 0xE0 x)) = 0xE0 + x.
Proof.
  intros Hx.
  apply (byte_val_lor 14 4 x); [lia | exact Hx | change (2 ^ 4) with 16; lia].
Qed.

Lemma lead4_byte_val (x : Z) :
  0 <= x < 8 -> byte_val (unicode.to_byte (Z.lor 0xF0 x)) = 0xF0 + x.
Proof.
  intros Hx.
  apply (byte_val_lor 30 3 x); [lia | exact Hx | change (2 ^ 3) with 8; lia].
Qed.

Ltac ranges :=
  unfold unicode.first_byte, unicode.is_second, unicode.is_trail,
         unicode.in_range;
  cbn [unicode.second_byte fst snd];
  repeat match goal with
         | |- context [if ?t then _ else _] =>
             let E := fresh "E" in destruct t eqn:E; try (exfalso; lia)
         end;
  first [reflexivity | lia].

Lemma land_low (a m n k x : Z) :
  m = Z.ones n ->
  0 <= n -> 0 <= x < 2 ^ n -> a = k * 2 ^ n + x -> Z.land a m = x.
Proof.
  intros -> Hn Hx ->. rewrite Z.land_ones by exact Hn.
  rewrite Z.add_comm, Z.mod_add by lia. apply Z.mod_small. exact Hx.
Qed.

Lemma low6_val (b : Byte.byte) (x : Z) :
  byte_val b = 0x80 + x -> 0 <= x < 64 -> unicode.low6 b = x.
Proof.
  intros Hv Hx. exact (land_low (byte_val b) 0x3F 6 2 x eq_refl ltac:(lia) Hx Hv).
Qed.

Lemma two_bytes_well_formed (b1 b2 : Byte.byte) (x1 x2 c : Z) :
  byte_val b1 = 0xC0 + x1 -> byte_val b2 = 0x80 + x2 ->
  2 <= x1 < 32 -> 0 <= x2 < 64 ->
  c = x1 * 64 + x2 ->
  unicode.well_formed_sequence [b1; b2] c.
Proof.
  intros V1 V2 H1 H2 ->. exists unicode.C2_DF.
  split; [ranges|]. split; [reflexivity|].
  split; [ranges|].
  rewrite scalar2_sum, (low6_val b2 x2 V2 H2).
  rewrite (land_low (byte_val b1) 0x1F 5 6 x1 eq_refl ltac:(lia)
                    ltac:(change (2 ^ 5) with 32; lia) V1).
  reflexivity.
Qed.

Lemma three_bytes_well_formed (b1 b2 b3 : Byte.byte) (x1 x2 x3 c : Z) :
  byte_val b1 = 0xE0 + x1 -> byte_val b2 = 0x80 + x2 ->
  byte_val b3 = 0x80 + x3 ->
  0 <= x1 < 16 -> 0 <= x2 < 64 -> 0 <= x3 < 64 ->
  c = (x1 * 64 + x2) * 64 + x3 ->
  0x800 <= c -> ~ (0xD800 <= c <= 0xDFFF) ->
  unicode.well_formed_sequence [b1; b2; b3] c.
Proof.
  intros V1 V2 V3 H1 H2 H3 -> Hlo Hs.
  assert (Hv : (x1 * 64 + unicode.low6 b2) * 64 + unicode.low6 b3 =
               unicode.scalar3 b1 b2 b3).
  { rewrite scalar3_sum.
    rewrite (land_low (byte_val b1) 0x0F 4 14 x1 eq_refl ltac:(lia)
                      ltac:(change (2 ^ 4) with 16; lia) V1).
    reflexivity. }
  rewrite (low6_val b2 x2 V2 H2), (low6_val b3 x3 V3 H3) in Hv.
  assert (Hr : x1 = 0 \/ 1 <= x1 <= 12 \/ x1 = 13 \/ 14 <= x1 <= 15) by lia.
  destruct Hr as [Hr|[Hr|[Hr|Hr]]];
    [exists unicode.E0|exists unicode.E1_EC|exists unicode.ED
     |exists unicode.EE_EF];
    (split; [ranges|]; split; [reflexivity|]; split; [ranges|];
     split; [ranges|exact Hv]).
Qed.

Lemma four_bytes_well_formed (b1 b2 b3 b4 : Byte.byte) (x1 x2 x3 x4 c : Z) :
  byte_val b1 = 0xF0 + x1 -> byte_val b2 = 0x80 + x2 ->
  byte_val b3 = 0x80 + x3 -> byte_val b4 = 0x80 + x4 ->
  0 <= x1 < 8 -> 0 <= x2 < 64 -> 0 <= x3 < 64 -> 0 <= x4 < 64 ->
  c = ((x1 * 64 + x2) * 64 + x3) * 64 + x4 ->
  0x10000 <= c <= 0x10FFFF ->
  unicode.well_formed_sequence [b1; b2; b3; b4] c.
Proof.
  intros V1 V2 V3 V4 H1 H2 H3 H4 -> Hc.
  assert (Hv : ((x1 * 64 + unicode.low6 b2) * 64 + unicode.low6 b3) * 64
               + unicode.low6 b4 = unicode.scalar4 b1 b2 b3 b4).
  { rewrite scalar4_sum.
    rewrite (land_low (byte_val b1) 0x07 3 30 x1 eq_refl ltac:(lia)
                      ltac:(change (2 ^ 3) with 8; lia) V1).
    reflexivity. }
  rewrite (low6_val b2 x2 V2 H2), (low6_val b3 x3 V3 H3),
          (low6_val b4 x4 V4 H4) in Hv.
  assert (Hr : x1 = 0 \/ 1 <= x1 <= 3 \/ x1 = 4) by lia.
  destruct Hr as [Hr|[Hr|Hr]];
    [exists unicode.F0|exists unicode.F1_F3|exists unicode.F4];
    (split; [ranges|]; split; [reflexivity|]; split; [ranges|];
     split; [ranges|]; split; [ranges|exact Hv]).
Qed.

Lemma encode_well_formed (c : Z) :
  unicode.is_scalar_value c ->
  unicode.well_formed_sequence (unicode.encode c) c.
Proof.
  intros [Hc Hs]. unfold unicode.encode.
  assert (H6 : Z.land c 0x3F = c mod 64)
    by exact (Z.land_ones c 6 ltac:(lia)).
  assert (H6' : Z.land (Z.shiftr c 6) 0x3F = (c / 64) mod 64).
  { rewrite (Z.shiftr_div_pow2 c 6) by lia.
    exact (Z.land_ones (c / 2 ^ 6) 6 ltac:(lia)). }
  assert (H12' : Z.land (Z.shiftr c 12) 0x3F = (c / 4096) mod 64).
  { rewrite (Z.shiftr_div_pow2 c 12) by lia.
    exact (Z.land_ones (c / 2 ^ 12) 6 ltac:(lia)). }
  rewrite H6, H6', H12'.
  rewrite (Z.shiftr_div_pow2 c 6), (Z.shiftr_div_pow2 c 12),
          (Z.shiftr_div_pow2 c 18) by lia.
  change (2 ^ 6) with 64. change (2 ^ 12) with 4096.
  change (2 ^ 18) with 262144.
  clear H6 H6' H12'.
  assert (Hx3 : 0 <= c mod 64 < 64) by (apply Z.mod_pos_bound; lia).
  assert (Hx2 : 0 <= (c / 64) mod 64 < 64) by (apply Z.mod_pos_bound; lia).
  assert (Hx1 : 0 <= (c / 4096) mod 64 < 64) by (apply Z.mod_pos_bound; lia).
  destruct (c <? 0x80) eqn:E1.
  { cbn [unicode.well_formed_sequence].
    assert (Hv : byte_val (unicode.to_byte c) = c)
      by (apply byte_val_to_byte; lia).
    split; [unfold unicode.in_range; rewrite Hv; lia|symmetry; exact Hv]. }
  destruct (c <? 0x800) eqn:E2.
  { assert (Hl : 2 <= c / 64 < 32) by (Z.div_mod_to_equations; lia).
    apply (two_bytes_well_formed _ _ (c / 64) (c mod 64));
      first [apply lead2_byte_val; lia | apply trail_byte_val; lia
            | assumption | Z.div_mod_to_equations; lia]. }
  destruct (c <? 0x10000) eqn:E3.
  { assert (Hl : 0 <= c / 4096 < 16) by (Z.div_mod_to_equations; lia).
    apply (three_bytes_well_formed _ _ _ (c / 4096) ((c / 64) mod 64)
                                   (c mod 64));
      first [apply lead3_byte_val; lia | apply trail_byte_val; lia
            | assumption | lia | Z.div_mod_to_equations; lia]. }
  assert (Hl : 0 <= c / 262144 < 8) by (Z.div_mod_to_equations; lia).
  apply (four_bytes_well_formed _ _ _ _ (c / 262144) ((c / 4096) mod 64)
                                ((c / 64) mod 64) (c mod 64));
    first [apply lead4_byte_val; lia | apply trail_byte_val; lia
          | assumption | lia | Z.div_mod_to_equations; lia].
Qed.

(** ** Well-formed input *)

Lemma emitted_app (a b : list call) : emitted (a ++ b) = emitted a ++ emitted b.
Proof. unfold emitted. apply flat_map_app. Qed.

Lemma emitted_calls_for (bytes : list Byte.byte) (c : Z) :
  emitted (calls_for bytes c) = [c].
Proof.
  unfold calls_for. rewrite emitted_app.
  induction (removelast bytes) as [|b l IH]; [reflexivity|exact IH].
Qed.

Lemma run_encode_all (cs : list Z) :
  Forall unicode.is_scalar_value cs ->
  run decoder.new (unicode.encode_all cs) =
  Ok (flat_map expected_calls cs ++ [check_last_error_call None]).
Proof.
  induction 1 as [|c cs Hc _ IH]; [reflexivity|].
  unfold unicode.encode_all in *. cbn [flat_map].
  rewrite (run_well_formed _ c _ (encode_well_formed c Hc)), IH.
  cbn [rmap bind]. rewrite app_assoc. reflexivity.
Qed.

Lemma emitted_expected (cs : list Z) : emitted (flat_map expected_calls cs) = cs.
Proof.
  induction cs as [|c cs IH]; [reflexivity|].
  cbn [flat_map]. rewrite emitted_app, IH.
  unfold expected_calls. rewrite emitted_calls_for. reflexivity.
Qed.

(** C1.  Driving a fresh decoder over the encoding of a sequence of scalar
    values takes, for each of them, a [decode] that returns nothing for
    every byte but the last, a [decode] of the last byte that returns the
    scalar value and a [fetch] that returns nothing; [check_last_error]
    then returns nothing; the code points obtained are the scalar values. *)
Theorem well_formed_decoded (cs : list Z) :
  Forall unicode.is_scalar_value cs ->
  run decoder.new (unicode.encode_all cs) =
    Ok (flat_map expected_calls cs ++ [check_last_error_call None]) /\
  drive decoder.new (unicode.encode_all cs) = Ok cs.
Proof.
  intros H. pose proof (run_encode_all cs H) as Hr.
  split; [exact Hr|].
  unfold drive. rewrite Hr. cbn [bind].
  rewrite emitted_app, emitted_expected. cbn [emitted flat_map returned opt_list app].
  rewrite app_nil_r. reflexivity.
Qed.

Lemma well_formed_decoded_witness :
  Forall unicode.is_scalar_value
         [0x61; 0x62; 0x24; 0xA3; 0x418; 0x939; 0x20AC; 0xD55C; 0x10348] /\
  drive decoder.new
        [Byte.x61; Byte.x62; Byte.x24; Byte.xc2; Byte.xa3; Byte.xd0; Byte.x98;
         Byte.xe0; Byte.xa4; Byte.xb9; Byte.xe2; Byte.x82; Byte.xac;
         Byte.xed; Byte.x95; Byte.x9c; Byte.xf0; Byte.x90; Byte.x8d; Byte.x88] =
  Ok [0x61; 0x62; 0x24; 0xA3; 0x418; 0x939; 0x20AC; 0xD55C; 0x10348].
Proof.
  assert (H : Forall unicode.is_scalar_value
                [0x61; 0x62; 0x24; 0xA3; 0x418; 0x939; 0x20AC; 0xD55C;
                 0x10348])
    by (repeat constructor; unfold unicode.is_scalar_value; lia).
  split; [exact H|].
  exact (proj2 (well_formed_decoded _ H)).
Defined.

(** ** The split into subparts is the one the standard defines *)

Lemma well_formed_sequence_inv (b1 : Byte.byte) (l : list Byte.byte) (c : Z) :
  unicode.well_formed_sequence (b1 :: l) c ->
  (unicode.first_byte b1 = None /\ unicode.in_range 0x00 0x7F b1 = true /\
   l = []) \/
  exists r b2 l2,
    unicode.first_byte b1 = Some r /\ l = b2 :: l2 /\
    unicode.is_second r b2 = true /\ forallb unicode.is_trail l2 = true /\
    length l2 = unicode.more_bytes r.
Proof.
  destruct l as [|b2 [|b3 [|b4 [|b5 l]]]];
    cbn [unicode.well_formed_sequence]; try contradiction.
  - intros [H _]. left.
    destruct (unicode.first_byte b1) as [r|] eqn:E.
    + rewrite (first_byte_not_ascii b1 r E) in H. discriminate H.
    + repeat split; assumption.
  - intros (r & H1 & Hm & H2 & _). right. exists r, b2, [].
    repeat split; try assumption. symmetry. exact Hm.
  - intros (r & H1 & Hm & H2 & H3 & _). right. exists r, b2, [b3].
    cbn [forallb length]. rewrite H3.
    repeat split; try assumption. symmetry. exact Hm.
  - intros (r & H1 & Hm & H2 & H3 & H4 & _). right. exists r, b2, [b3; b4].
    cbn [forallb length]. rewrite H3, H4.
    repeat split; try assumption. symmetry. exact Hm.
Qed.

Lemma trails_app (l rest : list Byte.byte) :
  forallb unicode.is_trail l = true -> trails (length l) (l ++ rest) = true.
Proof.
  induction l as [|b l IH]; [reflexivity|].
  cbn [forallb length app trails]. intros H.
  apply andb_true_iff in H. destruct H as [Hb Hl].
  rewrite Hb, (IH Hl). reflexivity.
Qed.

Lemma convertible_starts (bytes : list Byte.byte) :
  unicode.convertible bytes -> starts bytes = true.
Proof.
  intros (bs & rest & c & -> & H).
  destruct bs as [|b1 l]; [contradiction H|].
  destruct (well_formed_sequence_inv b1 l c H)
    as [(H1 & H0 & ->)|(r & b2 & l2 & H1 & -> & H2 & Ht & Hl)];
    cbn [app starts]; rewrite H1.
  - exact H0.
  - rewrite H2, <- Hl, (trails_app l2 rest Ht). reflexivity.
Qed.

Lemma initial_begins (bs : list Byte.byte) :
  unicode.initial_subsequence bs -> begins bs = true.
Proof.
  intros (more & c & H).
  destruct bs as [|b1 l1]; [reflexivity|]. cbn [app] in H.
  destruct (well_formed_sequence_inv b1 _ c H)
    as [(H1 & H0 & E)|(r & b2 & l2 & H1 & E & H2 & Ht & Hl)];
    cbn [begins]; rewrite H1.
  - apply app_eq_nil in E. destruct E as [-> _]. rewrite H0. reflexivity.
  - destruct l1 as [|b2' l1']; [reflexivity|].
    cbn [app] in E. injection E as -> <-.
    rewrite forallb_app in Ht. apply andb_true_iff in Ht.
    destruct Ht as [Ht _]. rewrite H2, Ht. cbn [andb].
    rewrite length_app in Hl. apply Nat.leb_le. lia.
Qed.

Lemma first_byte_initial (b1 : Byte.byte) (r : unicode.row) :
  unicode.first_byte b1 = Some r -> unicode.initial_subsequence [b1].
Proof.
  intros H.
  destruct r.
  - exists [Byte.x80], (unicode.scalar2 b1 Byte.x80).
    exists unicode.C2_DF. repeat split; assumption.
  - exists [Byte.xa0; Byte.x80], (unicode.scalar3 b1 Byte.xa0 Byte.x80).
    exists unicode.E0. repeat split; assumption.
  - exists [Byte.x80; Byte.x80], (unicode.scalar3 b1 Byte.x80 Byte.x80).
    exists unicode.E1_EC. repeat split; assumption.
  - exists [Byte.x80; Byte.x80], (unicode.scalar3 b1 Byte.x80 Byte.x80).
    exists unicode.ED. repeat split; assumption.
  - exists [Byte.x80; Byte.x80], (unicode.scalar3 b1 Byte.x80 Byte.x80).
    exists unicode.EE_EF. repeat split; assumption.
  - exists [Byte.x90; Byte.x80; Byte.x80],
      (unicode.scalar4 b1 Byte.x90 Byte.x80 Byte.x80).
    exists unicode.F0. repeat split; assumption.
  - exists [Byte.x80; Byte.x80; Byte.x80],
      (unicode.scalar4 b1 Byte.x80 Byte.x80 Byte.x80).
    exists unicode.F1_F3. repeat split; assumption.
  - exists [Byte.x80; Byte.x80; Byte.x80],
      (unicode.scalar4 b1 Byte.x80 Byte.x80 Byte.x80).
    exists unicode.F4. repeat split; assumption.
Qed.

Lemma two_bytes_initial (b1 b2 : Byte.byte) (r : unicode.row) :
  unicode.first_byte b1 = Some r -> unicode.is_second r b2 = true ->
  unicode.initial_subsequence [b1; b2].
Proof.
  intros H1 H2.
  destruct (unicode.more_bytes r) as [|[|n]] eqn:Em.
  - exists [], (unicode.scalar2 b1 b2). exists r. repeat split; assumption.
  - exists [Byte.x80], (unicode.scalar3 b1 b2 Byte.x80).
    exists r. repeat split; assumption.
  - exists [Byte.x80; Byte.x80], (unicode.scalar4 b1 b2 Byte.x80 Byte.x80).
    exists r. repeat split; try assumption.
    destruct r; try discriminate Em; reflexivity.
Qed.

Lemma three_bytes_initial (b1 b2 b3 : Byte.byte) (r : unicode.row) (n : nat) :
  unicode.first_byte b1 = Some r -> unicode.is_second r b2 = true ->
  unicode.more_bytes r = S n -> unicode.is_trail b3 = true ->
  unicode.initial_subsequence [b1; b2; b3].
Proof.
  intros H1 H2 Em H3.
  destruct n as [|n].
  - exists [], (unicode.scalar3 b1 b2 b3). exists r. repeat split; assumption.
  - exists [Byte.x80], (unicode.scalar4 b1 b2 b3 Byte.x80).
    exists r. repeat split; try assumption.
    destruct r; try discriminate Em; reflexivity.
Qed.

Ltac table_facts H :=
  repeat match goal with
         | E : unicode.first_byte _ = _ |- _ =>
             tryif constr_eq E H then fail else rewrite E in H
         | E : unicode.in_range _ _ _ = _ |- _ =>
             tryif constr_eq E H then fail else rewrite E in H
         | E : unicode.is_second _ _ = _ |- _ =>
             tryif constr_eq E H then fail else rewrite E in H
         | E : unicode.is_trail _ = _ |- _ =>
             tryif constr_eq E H then fail else rewrite E in H
         | E : unicode.more_bytes _ = _ |- _ =>
             tryif constr_eq E H then fail else rewrite E in H
         | _ => progress cbn [andb orb trails forallb] in H
         end.

Ltac not_convertible :=
  let H := fresh in
  intros H; apply convertible_starts in H; cbn [app starts trails] in H;
  table_facts H; discriminate H.

Ltac not_extended :=
  let more := fresh "more" in
  let rest' := fresh "rest'" in
  let E := fresh "E" in
  let Hm := fresh "Hm" in
  let H := fresh "H" in
  intros more rest' E Hm H;
  destruct more as [|? more]; [contradiction Hm; reflexivity|];
  cbn [app] in E; try discriminate E; try (injection E as <- _);
  apply initial_begins in H; cbn [app begins forallb] in H;
  table_facts H; discriminate H.

Lemma subparts_splits (n : nat) :
  forall bytes : list Byte.byte,
    (length bytes <= n)%nat ->
    unicode.splits bytes (unicode.subparts bytes).
Proof.
  induction n as [|n IH]; intros bytes Hn.
  - destruct bytes; [constructor|cbn in Hn; lia].
  - destruct bytes as [|b1 after1]; [constructor|]. cbn [length] in Hn.
    cbn [unicode.subparts].
    destruct (unicode.in_range 0x00 0x7F b1) eqn:E0.
    { apply (unicode.splits_well_formed [b1]);
        [split; [exact E0|reflexivity]|apply IH; lia]. }
    destruct (unicode.first_byte b1) as [r|] eqn:E1.
    2: { apply (unicode.splits_ill_formed [b1]); [|apply IH; lia].
         split; [discriminate|]. split; [not_convertible|].
         split; [right; reflexivity|not_extended]. }
    pose proof (first_byte_initial b1 r E1) as I1.
    destruct after1 as [|b2 after2].
    { apply (unicode.splits_ill_formed [b1] []); [|constructor].
      split; [discriminate|]. split; [not_convertible|].
      split; [left; exact I1|not_extended]. }
    cbn [length] in Hn.
    destruct (unicode.is_second r b2) eqn:E2; cbn [negb].
    2: { apply (unicode.splits_ill_formed [b1]);
           [|apply IH; cbn [length]; lia].
         split; [discriminate|]. split; [not_convertible|].
         split; [left; exact I1|not_extended]. }
    pose proof (two_bytes_initial b1 b2 r E1 E2) as I2.
    destruct (unicode.more_bytes r) as [|more] eqn:Em.
    { apply (unicode.splits_well_formed [b1; b2]); [|apply IH; lia].
      exists r. repeat split; assumption. }
    destruct after2 as [|b3 after3].
    { apply (unicode.splits_ill_formed [b1; b2] []); [|constructor].
      split; [discriminate|]. split; [not_convertible|].
      split; [left; exact I2|not_extended]. }
    cbn [length] in Hn.
    destruct (unicode.is_trail b3) eqn:E3; cbn [negb].
    2: { apply (unicode.splits_ill_formed [b1; b2]);
           [|apply IH; cbn [length]; lia].
         split; [discriminate|]. split; [not_convertible|].
         split; [left; exact I2|not_extended]. }
    pose proof (three_bytes_initial b1 b2 b3 r more E1 E2 Em E3) as I3.
    destruct more as [|more].
    { apply (unicode.splits_well_formed [b1; b2; b3]); [|apply IH; lia].
      exists r. repeat split; assumption. }
    assert (Em2 : unicode.more_bytes r = 2%nat)
      by (destruct r; try discriminate Em; reflexivity).
    destruct after3 as [|b4 after4].
    { apply (unicode.splits_ill_formed [b1; b2; b3] []); [|constructor].
      split; [discriminate|]. split; [not_convertible|].
      split; [left; exact I3|not_extended]. }
    cbn [length] in Hn.
    destruct (unicode.is_trail b4) eqn:E4; cbn [negb].
    2: { apply (unicode.splits_ill_formed [b1; b2; b3]);
           [|apply IH; cbn [length]; lia].
         split; [discriminate|]. split; [not_convertible|].
         split; [left; exact I3|not_extended]. }
    apply (unicode.splits_well_formed [b1; b2; b3; b4]); [|apply IH; lia].
    exists r. repeat split; assumption.
Qed.

(** ** A well-formed sequence is the encoding of its scalar value *)

Lemma byte_val_inj (a b : Byte.byte) : byte_val a = byte_val b -> a = b.
Proof.
  unfold byte_val. intros H. apply N2Z.inj in H.
  pose proof (Byte.of_to_N a) as Ha. rewrite H, Byte.of_to_N in Ha.
  injection Ha as <-. reflexivity.
Qed.

Lemma first_byte_val (b : Byte.byte) (r : unicode.row) :
  unicode.first_byte b = Some r ->
  match r with
  | unicode.C2_DF => 0xC2 <= byte_val b <= 0xDF
  | unicode.E0 => byte_val b = 0xE0
  | unicode.E1_EC => 0xE1 <= byte_val b <= 0xEC
  | unicode.ED => byte_val b = 0xED
  | unicode.EE_EF => 0xEE <= byte_val b <= 0xEF
  | unicode.F0 => byte_val b = 0xF0
  | unicode.F1_F3 => 0xF1 <= byte_val b <= 0xF3
  | unicode.F4 => byte_val b = 0xF4
  end.
Proof.
  destruct b; intros H; try discriminate H; injection H as <-;
    cbv [byte_val Byte.to_N Z.of_N]; lia.
Qed.

Lemma trail_val (b : Byte.byte) :
  unicode.is_trail b = true ->
  0 <= byte_val b - 0x80 < 64 /\ unicode.low6 b = byte_val b - 0x80.
Proof.
  intros H. split; [apply in_range_spec in H; lia|apply low6_trail; exact H].
Qed.

Lemma second_val (r : unicode.row) (b : Byte.byte) :
  unicode.is_second r b = true ->
  fst (unicode.second_byte r) <= byte_val b <= snd (unicode.second_byte r) /\
  unicode.is_trail b = true.
Proof.
  intros H. split; [apply in_range_spec; exact H|].
  rewrite is_second_wanted in H. exact (is_wanted_trail _ _ H).
Qed.

Lemma encode_two (c x1 x2 : Z) (b1 b2 : Byte.byte) :
  c = x1 * 64 + x2 -> 2 <= x1 < 32 -> 0 <= x2 < 64 ->
  byte_val b1 = 0xC0 + x1 -> byte_val b2 = 0x80 + x2 ->
  unicode.encode c = [b1; b2].
Proof.
  intros Hc H1 H2 V1 V2. unfold unicode.encode.
  replace (c <? 0x80) with false by lia.
  replace (c <? 0x800) with true by lia.
  rewrite (Z.shiftr_div_pow2 c 6) by lia.
  change 0x3F with (Z.ones 6). rewrite (Z.land_ones c 6) by lia.
  change (2 ^ 6) with 64.
  replace (c / 64) with x1 by (Z.div_mod_to_equations; lia).
  replace (c mod 64) with x2 by (Z.div_mod_to_equations; lia).
  f_equal; [|f_equal]; apply byte_val_inj.
  - rewrite lead2_byte_val by lia. symmetry. exact V1.
  - rewrite trail_byte_val by lia. symmetry. exact V2.
Qed.

Lemma encode_three (c x1 x2 x3 : Z) (b1 b2 b3 : Byte.byte) :
  c = (x1 * 64 + x2) * 64 + x3 -> 0x800 <= c ->
  0 <= x1 < 16 -> 0 <= x2 < 64 -> 0 <= x3 < 64 ->
  byte_val b1 = 0xE0 + x1 -> byte_val b2 = 0x80 + x2 ->
  byte_val b3 = 0x80 + x3 ->
  unicode.encode c = [b1; b2; b3].
Proof.
  intros Hc Hlo H1 H2 H3 V1 V2 V3. unfold unicode.encode.
  replace (c <? 0x80) with false by lia.
  replace (c <? 0x800) with false by lia.
  replace (c <? 0x10000) with true by lia.
  rewrite (Z.shiftr_div_pow2 c 6), (Z.shiftr_div_pow2 c 12) by lia.
  change 0x3F with (Z.ones 6). rewrite !Z.land_ones by lia.
  change (2 ^ 6) with 64. change (2 ^ 12) with 4096.
  replace (c / 4096) with x1 by (Z.div_mod_to_equations; lia).
  replace ((c / 64) mod 64) with x2 by (Z.div_mod_to_equations; lia).
  replace (c mod 64) with x3 by (Z.div_mod_to_equations; lia).
  f_equal; [|f_equal; [|f_equal]]; apply byte_val_inj.
  - rewrite lead3_byte_val by lia. symmetry. exact V1.
  - rewrite trail_byte_val by lia. symmetry. exact V2.
  - rewrite trail_byte_val by lia. symmetry. exact V3.
Qed.

Lemma encode_four (c x1 x2 x3 x4 : Z) (b1 b2 b3 b4 : Byte.byte) :
  c = ((x1 * 64 + x2) * 64 + x3) * 64 + x4 -> 0x10000 <= c ->
  0 <= x1 < 8 -> 0 <= x2 < 64 -> 0 <= x3 < 64 -> 0 <= x4 < 64 ->
  byte_val b1 = 0xF0 + x1 -> byte_val b2 = 0x80 + x2 ->
  byte_val b3 = 0x80 + x3 -> byte_val b4 = 0x80 + x4 ->
  unicode.encode c = [b1; b2; b3; b4].
Proof.
  intros Hc Hlo H1 H2 H3 H4 V1 V2 V3 V4. unfold unicode.encode.
  replace (c <? 0x80) with false by lia.
  replace (c <? 0x800) with false by lia.
  replace (c <? 0x10000) with false by lia.
  rewrite (Z.shiftr_div_pow2 c 6), (Z.shiftr_div_pow2 c 12),
          (Z.shiftr_div_pow2 c 18) by lia.
  change 0x3F with (Z.ones 6). rewrite !Z.land_ones by lia.
  change (2 ^ 6) with 64. change (2 ^ 12) with 4096.
  change (2 ^ 18) with 262144.
  replace (c / 262144) with x1 by (Z.div_mod_to_equations; lia).
  replace ((c / 4096) mod 64) with x2 by (Z.div_mod_to_equations; lia).
  replace ((c / 64) mod 64) with x3 by (Z.div_mod_to_equations; lia).
  replace (c mod 64) with x4 by (Z.div_mod_to_equations; lia).
  f_equal; [|f_equal; [|f_equal; [|f_equal]]]; apply byte_val_inj.
  - rewrite lead4_byte_val by lia. symmetry. exact V1.
  - rewrite trail_byte_val by lia. symmetry. exact V2.
  - rewrite trail_byte_val by lia. symmetry. exact V3.
  - rewrite trail_byte_val by lia. symmetry. exact V4.
Qed.

Lemma well_formed_sequence_encode (bs : list Byte.byte) (c : Z) :
  unicode.well_formed_sequence bs c ->
  unicode.is_scalar_value c /\ unicode.encode c = bs.
Proof.
  unfold unicode.is_scalar_value.
  destruct bs as [|b1 [|b2 [|b3 [|b4 [|b5 bs]]]]];
    cbn [unicode.well_formed_sequence]; try contradiction.
  - intros [H ->]. apply in_range_spec in H. split; [lia|].
    unfold unicode.encode. replace (byte_val b1 <? 0x80) with true by lia.
    f_equal. apply byte_val_inj. apply byte_val_to_byte. lia.
  - intros (r & H1 & Hm & H2 & ->).
    pose proof (first_byte_val b1 r H1) as V1.
    destruct (second_val r b2 H2) as [V2 T2].
    destruct (trail_val b2 T2) as [R2 L2].
    rewrite scalar2_sum, L2.
    destruct r; try discriminate Hm; cbn [unicode.second_byte fst snd] in V2.
    rewrite (land_low (byte_val b1) 0x1F 5 6 (byte_val b1 - 0xC0) eq_refl)
      by (change (2 ^ 5) with 32; lia).
    split; [lia|].
    apply (encode_two _ (byte_val b1 - 0xC0) (byte_val b2 - 0x80)); lia.
  - intros (r & H1 & Hm & H2 & T3 & ->).
    pose proof (first_byte_val b1 r H1) as V1.
    destruct (second_val r b2 H2) as [V2 T2].
    destruct (trail_val b2 T2) as [R2 L2].
    destruct (trail_val b3 T3) as [R3 L3].
    rewrite scalar3_sum, L2, L3.
    rewrite (land_low (byte_val b1) 0x0F 4 14 (byte_val b1 - 0xE0) eq_refl)
      by (change (2 ^ 4) with 16; destruct r; try discriminate Hm; lia).
    destruct r; try discriminate Hm; cbn [unicode.second_byte fst snd] in V2;
      (split; [lia|];
       apply (encode_three _ (byte_val b1 - 0xE0) (byte_val b2 - 0x80)
                           (byte_val b3 - 0x80)); lia).
  - intros (r & H1 & Hm & H2 & T3 & T4 & ->).
    pose proof (first_byte_val b1 r H1) as V1.
    destruct (second_val r b2 H2) as [V2 T2].
    destruct (trail_val b2 T2) as [R2 L2].
    destruct (trail_val b3 T3) as [R3 L3].
    destruct (trail_val b4 T4) as [R4 L4].
    rewrite scalar4_sum, L2, L3, L4.
    rewrite (land_low (byte_val b1) 0x07 3 30 (byte_val b1 - 0xF0) eq_refl)
      by (change (2 ^ 3) with 8; destruct r; try discriminate Hm; lia).
    destruct r; try discriminate Hm; cbn [unicode.second_byte fst snd] in V2;
      (split; [lia|];
       apply (encode_four _ (byte_val b1 - 0xF0) (byte_val b2 - 0x80)
                          (byte_val b3 - 0x80) (byte_val b4 - 0x80)); lia).
Qed.

(** ** The split is unique *)

Lemma app_same_length {A : Type} (a a' b b' : list A) :
  length a = length a' -> a ++ b = a' ++ b' -> a = a' /\ b = b'.
Proof.
  revert a'. induction a as [|x a IH]; intros [|x' a'] Hl E;
    try discriminate Hl.
  - split; [reflexivity|exact E].
  - cbn [app] in E. injection E as -> E. injection Hl as Hl.
    destruct (IH a' Hl E) as [-> ->]. split; reflexivity.
Qed.

Lemma well_formed_sequence_scalar (bs : list Byte.byte) (c c' : Z) :
  unicode.well_formed_sequence bs c -> unicode.well_formed_sequence bs c' ->
  c = c'.
Proof.
  destruct bs as [|b1 [|b2 [|b3 [|b4 [|b5 bs]]]]];
    cbn [unicode.well_formed_sequence]; try contradiction.
  - intros [_ ->] [_ ->]. reflexivity.
  - intros (r & _ & _ & _ & ->) (r' & _ & _ & _ & ->). reflexivity.
  - intros (r & _ & _ & _ & _ & ->) (r' & _ & _ & _ & _ & ->). reflexivity.
  - intros (r & _ & _ & _ & _ & _ & ->) (r' & _ & _ & _ & _ & _ & ->).
    reflexivity.
Qed.

(** No well-formed sequence is the beginning of another one. *)
Lemma well_formed_sequence_prefix (bs bs' rest rest' : list Byte.byte)
      (c c' : Z) :
  unicode.well_formed_sequence bs c -> unicode.well_formed_sequence bs' c' ->
  bs ++ rest = bs' ++ rest' ->
  bs = bs' /\ c = c' /\ rest = rest'.
Proof.
  intros H H' E.
  assert (Hb : bs = bs' /\ rest = rest').
  { destruct bs as [|b1 l]; [contradiction H|].
    destruct bs' as [|b1' l']; [contradiction H'|].
    cbn [app] in E. injection E as <- E.
    destruct (well_formed_sequence_inv b1 l c H)
      as [(H1 & _ & ->)|(r & b2 & l2 & H1 & -> & _ & _ & Hl)];
      destruct (well_formed_sequence_inv b1 l' c' H')
      as [(H1' & _ & ->)|(r' & b2' & l2' & H1' & -> & _ & _ & Hl')];
      try congruence.
    - split; [reflexivity|exact E].
    - cbn [app] in E. injection E as <- E.
      assert (Hr : r = r') by congruence. subst r'.
      destruct (app_same_length l2 l2' rest rest' ltac:(congruence) E)
        as [-> ->].
      split; reflexivity. }
  destruct Hb as [<- <-]. split; [reflexivity|].
  split; [exact (well_formed_sequence_scalar bs c c' H H')|reflexivity].
Qed.

Lemma maximal_subpart_longer (bs bs' l rest rest' : list Byte.byte) :
  unicode.maximal_subpart bs rest -> unicode.maximal_subpart bs' rest' ->
  bs = bs' ++ l -> rest' = l ++ rest -> l = [].
Proof.
  intros (Hn & _ & Hi & _) (Hn' & _ & _ & Hx') -> ->.
  destruct l as [|x l]; [reflexivity|]. exfalso.
  destruct Hi as [Hi|Hi].
  - exact (Hx' (x :: l) rest eq_refl ltac:(discriminate) Hi).
  - destruct bs' as [|y bs']; [contradiction Hn'; reflexivity|].
    rewrite length_app in Hi. cbn [length] in Hi. lia.
Qed.

Lemma maximal_subpart_unique (bs bs' rest rest' : list Byte.byte) :
  unicode.maximal_subpart bs rest -> unicode.maximal_subpart bs' rest' ->
  bs ++ rest = bs' ++ rest' -> bs = bs' /\ rest = rest'.
Proof.
  intros H H' E.
  destruct (app_eq_app _ _ _ _ E) as [l [[E1 E2]|[E1 E2]]].
  - pose proof (maximal_subpart_longer bs bs' l rest rest' H H' E1 E2) as ->.
    rewrite app_nil_r in E1. cbn [app] in E2. split; congruence.
  - pose proof (maximal_subpart_longer bs' bs l rest' rest H' H E1 E2) as ->.
    rewrite app_nil_r in E1. cbn [app] in E2. split; congruence.
Qed.

Lemma splits_unique (bytes : list Byte.byte) (ps : list unicode.subpart) :
  unicode.splits bytes ps ->
  forall ps', unicode.splits bytes ps' -> ps = ps'.
Proof.
  induction 1 as [|bs c rest ps Hw Hs IH|bs rest ps Hm Hs IH];
    intros ps' H'.
  - inversion H' as [|bs' c' rest' ps'' Hw' Hs' E|bs' rest' ps'' Hm' Hs' E].
    + reflexivity.
    + first [apply app_eq_nil in E|symmetry in E; apply app_eq_nil in E].
      destruct E as [-> _].
      contradiction Hw'.
    + first [apply app_eq_nil in E|symmetry in E; apply app_eq_nil in E].
      destruct E as [-> _].
      destruct Hm' as [Hn _]. contradiction Hn. reflexivity.
  - inversion H' as [E|bs' c' rest' ps'' Hw' Hs' E|bs' rest' ps'' Hm' Hs' E].
    + first [apply app_eq_nil in E|symmetry in E; apply app_eq_nil in E].
      destruct E as [-> _].
      contradiction Hw.
    + assert (E' : bs ++ rest = bs' ++ rest') by (first [exact E|exact (eq_sym E)]).
      destruct (well_formed_sequence_prefix _ _ _ _ _ _ Hw Hw' E')
        as (-> & -> & ->).
      f_equal. apply IH. exact Hs'.
    + exfalso. destruct Hm' as (_ & Hc & _). apply Hc.
      first [rewrite E|rewrite <- E].
      exists bs, rest, c. split; [reflexivity|exact Hw].
  - inversion H' as [E|bs' c' rest' ps'' Hw' Hs' E|bs' rest' ps'' Hm' Hs' E].
    + first [apply app_eq_nil in E|symmetry in E; apply app_eq_nil in E].
      destruct E as [-> _].
      destruct Hm as [Hn _]. contradiction Hn. reflexivity.
    + exfalso. destruct Hm as (_ & Hc & _). apply Hc.
      first [rewrite <- E|rewrite E].
      exists bs', rest', c'. split; [reflexivity|exact Hw'].
    + assert (E' : bs ++ rest = bs' ++ rest') by (first [exact E|exact (eq_sym E)]).
      destruct (maximal_subpart_unique _ _ _ _ Hm Hm' E') as [-> ->].
      f_equal. apply IH. exact Hs'.
Qed.

Lemma splits_well_formed_In (bytes : list Byte.byte)
      (ps : list unicode.subpart) (bs : list Byte.byte) (c : Z) :
  unicode.splits bytes ps -> In (unicode.well_formed bs c) ps ->
  unicode.well_formed_sequence bs c.
Proof.
  induction 1 as [|bs0 c0 rest ps Hw Hs IH|bs0 rest ps Hm Hs IH];
    cbn [In]; intros Hin.
  - contradiction Hin.
  - destruct Hin as [E|Hin]; [injection E as <- <-; exact Hw|exact (IH Hin)].
  - destruct Hin as [E|Hin]; [discriminate E|exact (IH Hin)].
Qed.

(** C2.  A byte sequence has one split into well-formed sequences and
    maximal subparts of ill-formed sequences, and driving a fresh decoder
    over it gives, in order, the scalar value of each well-formed sequence
    (the sequence is the encoding of that scalar value) and one U+FFFD for
    each maximal subpart, the one the input may end with included.  On
    F4 8F BF 22 the code points are U+FFFD and 0x22; on C2 alone, U+FFFD. *)
Theorem maximal_subparts_replaced (bytes : list Byte.byte) :
  unicode.splits bytes (unicode.subparts bytes) /\
  (forall ps,
     unicode.splits bytes ps ->
     drive decoder.new bytes = Ok (map unicode.converted ps) /\
     concat (map unicode.bytes_of ps) = bytes /\
     forall bs c,
       In (unicode.well_formed bs c) ps ->
       unicode.is_scalar_value c /\ unicode.encode c = bs) /\
  drive decoder.new [Byte.xf4; Byte.x8f; Byte.xbf; Byte.x22] =
    Ok [0xFFFD; 0x22] /\
  drive decoder.new [Byte.xc2] = Ok [0xFFFD].
Proof.
  pose proof (subparts_splits _ bytes (le_n _)) as Hs.
  split; [exact Hs|]. split; [|split; reflexivity].
  intros ps Hps. rewrite <- (splits_unique bytes _ Hs ps Hps).
  split; [|split].
  - rewrite <- pump_drive. exact (pump_unicode _ bytes (le_n _)).
  - exact (subparts_concat _ bytes (le_n _)).
  - intros bs c Hin. apply well_formed_sequence_encode.
    exact (splits_well_formed_In bytes _ bs c Hs Hin).
Qed.

(** * Further properties *)

(** ** The tables *)

Lemma next_state_start (b : Byte.byte) :
  exists t,
    at_ decoder.char_classes_ (byte_val b) = Ok t /\
    decoder.next_state decoder.state.start t =
    Ok (if unicode.in_range 0x00 0x7F b then decoder.state.start
        else match unicode.first_byte b with
             | Some r => state_of_row r
             | None => decoder.state.error
             end).
Proof. destruct b; eexists; split; reflexivity. Qed.

Lemma next_state_awaiting (s : decoder.state.t) (b : Byte.byte) :
  awaiting s = true ->
  exists t,
    at_ decoder.char_classes_ (byte_val b) = Ok t /\
    decoder.next_state s t =
    Ok (if is_wanted s b then after s else decoder.state.error).
Proof.
  destruct s; intros H; try discriminate H;
    destruct b; eexists; split; reflexivity.
Qed.

(** X1.  The two tables implement table 3-7: from [start] the class of a
    byte leads to [start] for 00..7F, to the state of its row for a first
    byte C2..F4, and to [error] otherwise; from a state that waits for
    continuation bytes it leads on exactly for the bytes table 3-7 allows at
    that position (80..BF, but A0..BF after E0, 80..9F after ED, 90..BF
    after F0 and 80..8F after F4), and to [error] otherwise. *)
Theorem transitions_follow_table_3_7 (s : decoder.state.t) (b : Byte.byte) :
  s <> decoder.state.error ->
  exists t,
    at_ decoder.char_classes_ (byte_val b) = Ok t /\
    decoder.next_state s t =
    Ok match s with
       | decoder.state.start =>
           if unicode.in_range 0x00 0x7F b then decoder.state.start
           else match unicode.first_byte b with
                | Some unicode.C2_DF => decoder.state.next1
                | Some unicode.E0 => decoder.state.next3
                | Some unicode.E1_EC => decoder.state.next2
                | Some unicode.ED => decoder.state.next4
                | Some unicode.EE_EF => decoder.state.next2
                | Some unicode.F0 => decoder.state.next5
                | Some unicode.F1_F3 => decoder.state.next6
                | Some unicode.F4 => decoder.state.next7
                | None => decoder.state.error
                end
       | decoder.state.next1 =>
           if unicode.in_range 0x80 0xBF b then decoder.state.start
           else decoder.state.error
       | decoder.state.next2 =>
           if unicode.in_range 0x80 0xBF b then decoder.state.next1
           else decoder.state.error
       | decoder.state.next3 =>
           if unicode.in_range 0xA0 0xBF b then decoder.state.next1
           else decoder.state.error
       | decoder.state.next4 =>
           if unicode.in_range 0x80 0x9F b then decoder.state.next1
           else decoder.state.error
       | decoder.state.next5 =>
           if unicode.in_range 0x90 0xBF b then decoder.state.next2
           else decoder.state.error
       | decoder.state.next6 =>
           if unicode.in_range 0x80 0xBF b then decoder.state.next2
           else decoder.state.error
       | decoder.state.next7 =>
           if unicode.in_range 0x80 0x8F b then decoder.state.next2
           else decoder.state.error
       | decoder.state.error => decoder.state.error
       end.
Proof.
  intros Hs. destruct s; try (contradiction Hs; reflexivity).
  - destruct (next_state_start b) as (t & Ht & Hn). exists t.
    split; [exact Ht|]. rewrite Hn.
    destruct (unicode.in_range 0x00 0x7F b); [reflexivity|].
    destruct (unicode.first_byte b) as [[]|]; reflexivity.
  - exact (next_state_awaiting decoder.state.next1 b eq_refl).
  - exact (next_state_awaiting decoder.state.next2 b eq_refl).
  - exact (next_state_awaiting decoder.state.next3 b eq_refl).
  - exact (next_state_awaiting decoder.state.next4 b eq_refl).
  - exact (next_state_awaiting decoder.state.next5 b eq_refl).
  - exact (next_state_awaiting decoder.state.next6 b eq_refl).
  - exact (next_state_awaiting decoder.state.next7 b eq_refl).
Qed.

Lemma transitions_follow_table_3_7_witness :
  exists t,
    at_ decoder.char_classes_ (byte_val Byte.xa0) = Ok t /\
    decoder.next_state decoder.state.next4 t = Ok decoder.state.error.
Proof.
  exact (transitions_follow_table_3_7 decoder.state.next4 Byte.xa0
                                      ltac:(discriminate)).
Defined.

(** X2.  [start_byte_payload], given a byte and its class, returns the byte
    itself for 00..7F and the payload bits of a first byte: the low five
    bits for C2..DF, the low four for E0..EF, the low three for F0..F4. *)
Theorem start_byte_payload_bits (b : Byte.byte) :
  exists t,
    at_ decoder.char_classes_ (byte_val b) = Ok t /\
    0 <= decoder.start_byte_payload (byte_val b) t <= byte_val b /\
    (unicode.in_range 0x00 0x7F b = true ->
     decoder.start_byte_payload (byte_val b) t = byte_val b) /\
    (unicode.in_range 0xC2 0xDF b = true ->
     decoder.start_byte_payload (byte_val b) t = Z.land (byte_val b) 0x1F) /\
    (unicode.in_range 0xE0 0xEF b = true ->
     decoder.start_byte_payload (byte_val b) t = Z.land (byte_val b) 0x0F) /\
    (unicode.in_range 0xF0 0xF4 b = true ->
     decoder.start_byte_payload (byte_val b) t = Z.land (byte_val b) 0x07).
Proof.
  destruct b; eexists; (split; [reflexivity|]);
    (split; [cbv; split; discriminate|]);
    repeat split; intros H; first [reflexivity | discriminate H].
Qed.

Lemma at_out_of_range {A : Type} (a : list A) (i : Z) :
  at_ a i = OutOfRange <-> ~ (0 <= i < Z.of_nat (length a)).
Proof.
  unfold at_. destruct (i <? 0) eqn:E.
  - split; [intros _; lia|reflexivity].
  - destruct (nth_error a (Z.to_nat i)) as [x|] eqn:En.
    + split; [discriminate|]. intros H. exfalso. apply H.
      assert (Hn : nth_error a (Z.to_nat i) <> None) by congruence.
      apply nth_error_Some in Hn. lia.
    + split; [|reflexivity]. intros _. apply nth_error_None in En. lia.
Qed.

(** X3.  [next_state] throws exactly when the index [state * 12 + type] is
    outside the 96 entries of the table: never for a state other than
    [error] and a class below 12, always for the state [error] and a class
    that is not negative, which has no row.  So [decode] on a decoder whose
    state is [error] throws for every byte. *)
Theorem next_state_bounds (s : decoder.state.t) (type : Z) :
  (decoder.next_state s type = OutOfRange <->
   ~ (0 <= decoder.state.to_uint8 s * 12 + type < 96)) /\
  (s <> decoder.state.error -> 0 <= type < 12 ->
   exists s', decoder.next_state s type = Ok s') /\
  (0 <= type -> decoder.next_state decoder.state.error type = OutOfRange) /\
  (forall c td b,
     decoder.decode (decoder.mk c decoder.state.error td) b = OutOfRange).
Proof.
  assert (H : forall s0 t0,
             decoder.next_state s0 t0 = OutOfRange <->
             ~ (0 <= decoder.state.to_uint8 s0 * 12 + t0 < 96)).
  { intros s0 t0. unfold decoder.next_state, decoder.num_classes_.
    exact (at_out_of_range decoder.fsm_ _). }
  split; [apply H|]. split; [|split].
  - intros Hs Ht.
    destruct (decoder.next_state s type) as [s'|] eqn:E;
      [exists s'; reflexivity|].
    exfalso. apply H in E. apply E.
    destruct s; cbn [decoder.state.to_uint8];
      first [lia | contradiction Hs; reflexivity].
  - intros Ht. apply H. cbn [decoder.state.to_uint8]. lia.
  - intros c td b. apply decode_error_state.
Qed.

(** ** Single bytes in context *)

Lemma ascii_not_wanted (s : decoder.state.t) (b : Byte.byte) :
  unicode.in_range 0x00 0x7F b = true -> is_wanted s b = false.
Proof.
  unfold is_wanted, unicode.in_range.
  destruct s; cbn [wanted fst snd]; lia.
Qed.

(** X5.  A byte 00..7F is never lost, whatever the decoder was in the
    middle of: [decode] followed by [fetch] gives the byte alone when the
    state was [start], and U+FFFD for the interrupted sequence followed by
    the byte otherwise; the state is [start] afterwards and nothing is
    pending. *)
Theorem ascii_byte_always_delivered (d : decoder.t) (b : Byte.byte) :
  decoder.state_ d <> decoder.state.error ->
  unicode.in_range 0x00 0x7F b = true ->
  exists r d1,
    decoder.decode d b = Ok (r, d1) /\
    opt_list r ++ opt_list (fst (decoder.fetch d1)) =
      match decoder.state_ d with
      | decoder.state.start => [byte_val b]
      | _ => [0xFFFD; byte_val b]
      end /\
    snd (decoder.fetch d1) =
      decoder.mk (byte_val b) decoder.state.start decoder.to_deliver.nothing.
Proof.
  destruct d as [c s td]. cbn [decoder.state_]. intros Hs Hb.
  destruct (awaiting s) eqn:Ea.
  - rewrite (decode_awaiting c s td b Ea), (ascii_not_wanted s b Hb).
    unfold restarted. rewrite Hb.
    eexists; eexists; split; [reflexivity|].
    destruct s; try discriminate Ea; split; reflexivity.
  - destruct s; try discriminate Ea; [|contradiction Hs; reflexivity].
    rewrite decode_at_start, Hb.
    eexists; eexists; split; [reflexivity|]. split; reflexivity.
Qed.

Lemma ascii_byte_always_delivered_witness :
  exists r d1,
    decoder.decode
      (decoder.mk 0x0D decoder.state.next4 decoder.to_deliver.nothing)
      Byte.x22 = Ok (r, d1) /\
    opt_list r ++ opt_list (fst (decoder.fetch d1)) = [0xFFFD; 0x22] /\
    snd (decoder.fetch d1) =
      decoder.mk 0x22 decoder.state.start decoder.to_deliver.nothing.
Proof.
  exact (ascii_byte_always_delivered
           (decoder.mk 0x0D decoder.state.next4 decoder.to_deliver.nothing)
           Byte.x22 ltac:(discriminate) eq_refl).
Defined.

Lemma decode_nothing_awaited (d : decoder.t) (b : Byte.byte) (d' : decoder.t) :
  decoder.decode d b = Ok (None, d') ->
  (1 <= awaited (decoder.state_ d') <= 3)%nat /\
  (decoder.state_ d <> decoder.state.start ->
   (awaited (decoder.state_ d') < awaited (decoder.state_ d))%nat).
Proof.
  destruct d as [c s td]. cbn [decoder.state_].
  destruct (awaiting s) eqn:Ea.
  - rewrite (decode_awaiting c s td b Ea).
    destruct (is_wanted s b); [|discriminate].
    destruct s; try discriminate Ea; cbn [after];
      intros H; try discriminate H; injection H as <-;
      cbn [decoder.state_ awaited]; split; try intros _; lia.
  - destruct s; try discriminate Ea.
    + rewrite decode_at_start.
      destruct (unicode.in_range 0x00 0x7F b); [discriminate|].
      destruct (unicode.first_byte b) as [r|]; [|discriminate].
      intros H. injection H as <-. cbn [decoder.state_].
      split; [destruct r; cbn [state_of_row awaited]; lia|].
      intros Hc. contradiction Hc. reflexivity.
    + rewrite decode_error_state. discriminate.
Qed.

(** X6.  Of four [decode] calls in a row, whatever the decoder and the
    bytes, at least one returns something. *)
Theorem four_decodes_return_something (d : decoder.t)
        (b1 b2 b3 b4 : Byte.byte) (rs : list (option Z)) (d' : decoder.t) :
  perform_all d [op_decode b1; op_decode b2; op_decode b3; op_decode b4] =
    Ok (rs, d') ->
  rs <> [None; None; None; None].
Proof.
  cbn [perform_all perform]. intros H Hrs. subst rs.
  destruct (decoder.decode d b1) as [[r1 d1]|] eqn:E1; [|discriminate H].
  cbn [bind] in H.
  destruct (decoder.decode d1 b2) as [[r2 d2]|] eqn:E2; [|discriminate H].
  cbn [bind] in H.
  destruct (decoder.decode d2 b3) as [[r3 d3]|] eqn:E3; [|discriminate H].
  cbn [bind] in H.
  destruct (decoder.decode d3 b4) as [[r4 d4]|] eqn:E4; [|discriminate H].
  cbn [bind] in H. injection H as -> -> -> -> _.
  destruct (decode_nothing_awaited _ _ _ E1) as [A1 _].
  destruct (decode_nothing_awaited _ _ _ E2) as [A2 L2].
  destruct (decode_nothing_awaited _ _ _ E3) as [A3 L3].
  destruct (decode_nothing_awaited _ _ _ E4) as [A4 L4].
  assert (N : forall x : decoder.t,
             (1 <= awaited (decoder.state_ x))%nat ->
             decoder.state_ x <> decoder.state.start).
  { intros x Hx Ex. rewrite Ex in Hx. cbn in Hx. lia. }
  pose proof (L2 (N d1 ltac:(lia))). pose proof (L3 (N d2 ltac:(lia))).
  pose proof (L4 (N d3 ltac:(lia))). lia.
Qed.

Lemma four_decodes_return_something_witness :
  perform_all decoder.new
              [op_decode Byte.xf0; op_decode Byte.x90; op_decode Byte.x80;
               op_decode Byte.x80] =
    Ok ([None; None; None; Some 0x10000],
        decoder.mk 0x10000 decoder.state.start decoder.to_deliver.nothing) /\
  [None; None; None; Some 0x10000] <> [None; None; None; None].
Proof.
  split; [reflexivity|].
  exact (four_decodes_return_something
           decoder.new Byte.xf0 Byte.x90 Byte.x80 Byte.x80
           [None; None; None; Some 0x10000]
           (decoder.mk 0x10000 decoder.state.start decoder.to_deliver.nothing)
           eq_refl).
Defined.

(** ** Calls in other orders *)

Lemma decode_ignores_pending (c : Z) (s : decoder.state.t)
      (td td' : decoder.to_deliver.t) (b : Byte.byte) :
  decoder.decode (decoder.mk c s td) b = decoder.decode (decoder.mk c s td') b.
Proof. reflexivity. Qed.

Lemma perform_all_without_fetch (ops : list operation) :
  forall (c : Z) (s : decoder.state.t) (td td' : decoder.to_deliver.t)
         (rs : list (option Z)) (d' : decoder.t),
    perform_all (decoder.mk c s td) ops = Ok (rs, d') ->
    exists td'',
      perform_all (decoder.mk c s td') (filter (fun o => negb (is_fetch o)) ops) =
      Ok (map snd (filter (fun p => negb (is_fetch (fst p))) (combine ops rs)),
          decoder.mk (decoder.code_ d') (decoder.state_ d') td'').
Proof.
  induction ops as [|o ops IH]; intros c s td td' rs d' H.
  - cbn in H. injection H as <- <-. exists td'. reflexivity.
  - cbn [perform_all] in H.
    destruct o as [b| |]; cbn [perform filter is_fetch negb] in H |- *.
    + rewrite (decode_ignores_pending c s td td' b) in H.
      cbn [perform_all perform].
      destruct (decoder.decode (decoder.mk c s td') b) as [[r [c1 s1 td1]]|];
        [|discriminate H].
      cbn [bind] in H |- *.
      destruct (perform_all (decoder.mk c1 s1 td1) ops) as [[rs1 d1]|] eqn:E;
        [|discriminate H].
      cbn [bind] in H. injection H as <- <-.
      destruct (IH c1 s1 td1 td1 rs1 d1 E) as [td'' E'].
      rewrite E'. cbn [bind combine filter fst is_fetch negb map snd].
      exists td''. reflexivity.
    + cbn [bind] in H. unfold decoder.fetch, decoder.set_to_deliver in H.
      cbn [decoder.code_ decoder.state_ decoder.to_deliver_] in H.
      destruct (perform_all
                  (decoder.mk c s decoder.to_deliver.nothing) ops)
        as [[rs1 d1]|] eqn:E; [|discriminate H].
      cbn [bind] in H. injection H as <- <-.
      destruct (IH c s decoder.to_deliver.nothing td' rs1 d1 E) as [td'' E'].
      rewrite E'. cbn [combine filter fst is_fetch negb].
      exists td''. reflexivity.
    + cbn [bind] in H. cbn [perform_all perform bind].
      destruct (perform_all (decoder.mk c s td) ops) as [[rs1 d1]|] eqn:E;
        [|discriminate H].
      cbn [bind] in H. injection H as <- <-.
      destruct (IH c s td td' rs1 d1 E) as [td'' E'].
      rewrite E'. cbn [bind combine filter fst is_fetch negb map snd].
      exists td''. reflexivity.
Qed.

(** X4.  [fetch] changes nothing but what is pending, and [decode] drops
    what is pending: leaving every [fetch] out of a sequence of calls
    leaves what the [decode] and [check_last_error] calls return, the final
    state and the final accumulator as they were, and only loses the values
    the [fetch] calls would have returned. *)
Theorem fetch_only_drains (d : decoder.t) (ops : list operation)
        (rs : list (option Z)) (d' : decoder.t) :
  perform_all d ops = Ok (rs, d') ->
  exists d'',
    perform_all d (filter (fun o => negb (is_fetch o)) ops) =
      Ok (map snd (filter (fun p => negb (is_fetch (fst p))) (combine ops rs)),
          d'') /\
    decoder.code_ d'' = decoder.code_ d' /\
    decoder.state_ d'' = decoder.state_ d'.
Proof.
  destruct d as [c s td]. intros H.
  destruct (perform_all_without_fetch ops c s td td rs d' H) as [td'' E].
  eexists. split; [exact E|]. split; reflexivity.
Qed.

Lemma fetch_only_drains_witness :
  exists d'',
    perform_all decoder.new [op_decode Byte.xc2; op_decode Byte.x20;
                             op_decode Byte.x21] =
      Ok ([None; Some 0xFFFD; Some 0x21], d'') /\
    decoder.code_ d'' = 0x21 /\
    decoder.state_ d'' = decoder.state.start.
Proof.
  exact (fetch_only_drains
           decoder.new
           [op_decode Byte.xc2; op_decode Byte.x20; op_fetch;
            op_decode Byte.x21; op_fetch]
           [None; Some 0xFFFD; Some 0x20; Some 0x21; None]
           (decoder.mk 0x21 decoder.state.start decoder.to_deliver.nothing)
           eq_refl).
Defined.

(** ** Input in chunks *)




(** ** How many code points *)

Lemma subparts_length (n : nat) :
  forall bytes : list Byte.byte,
    (length bytes <= n)%nat ->
    (length (unicode.subparts bytes) <= length bytes
     <= 4 * length (unicode.subparts bytes))%nat.
Proof.
  induction n as [|n IH]; intros bytes Hn.
  - destruct bytes; [cbn; lia|cbn in Hn; lia].
  - destruct bytes as [|b1 after1]; [cbn; lia|]. cbn [length] in Hn.
    cbn [unicode.subparts].
    destruct (unicode.in_range 0x00 0x7F b1);
      [pose proof (IH after1 ltac:(lia)); cbn [length]; lia|].
    destruct (unicode.first_byte b1) as [r|];
      [|pose proof (IH after1 ltac:(lia)); cbn [length]; lia].
    destruct after1 as [|b2 after2]; [cbn [length]; lia|].
    cbn [length] in Hn.
    destruct (negb (unicode.is_second r b2));
      [pose proof (IH (b2 :: after2) ltac:(cbn [length]; lia));
       cbn [length] in *; lia|].
    destruct (unicode.more_bytes r) as [|more];
      [pose proof (IH after2 ltac:(lia)); cbn [length]; lia|].
    destruct after2 as [|b3 after3]; [cbn [length]; lia|].
    cbn [length] in Hn.
    destruct (negb (unicode.is_trail b3));
      [pose proof (IH (b3 :: after3) ltac:(cbn [length]; lia));
       cbn [length] in *; lia|].
    destruct more as [|more];
      [pose proof (IH after3 ltac:(lia)); cbn [length]; lia|].
    destruct after3 as [|b4 after4]; [cbn [length]; lia|].
    cbn [length] in Hn.
    destruct (negb (unicode.is_trail b4));
      [pose proof (IH (b4 :: after4) ltac:(cbn [length]; lia));
       cbn [length] in *; lia|].
    pose proof (IH after4 ltac:(lia)). cbn [length]. lia.
Qed.

Lemma drive_unicode (bytes : list Byte.byte) :
  drive decoder.new bytes = Ok (unicode.decode bytes).
Proof. rewrite <- pump_drive. exact (pump_unicode _ bytes (le_n _)). Qed.

(** X7.  Driving a fresh decoder over a byte sequence gives at most as many
    code points as there are bytes, and at least a quarter as many; it
    gives no code point only for the empty input. *)
Theorem code_points_per_byte (bytes : list Byte.byte) :
  exists out,
    drive decoder.new bytes = Ok out /\
    (length out <= length bytes <= 4 * length out)%nat /\
    (out = [] <-> bytes = []).
Proof.
  exists (unicode.decode bytes). split; [apply drive_unicode|].
  pose proof (subparts_length _ bytes (le_n _)) as H.
  unfold unicode.decode. rewrite length_map. split; [exact H|].
  split.
  - intros E. apply (f_equal (@length Z)) in E.
    rewrite length_map in E. cbn [length] in E.
    destruct bytes; [reflexivity|cbn [length] in H; lia].
  - intros ->. reflexivity.
Qed.

(** ** Round trips *)

Lemma splits_encode (bytes : list Byte.byte) (ps : list unicode.subpart) :
  unicode.splits bytes ps ->
  ~ In 0xFFFD (map unicode.converted ps) ->
  Forall unicode.is_scalar_value (map unicode.converted ps) /\
  unicode.encode_all (map unicode.converted ps) = bytes.
Proof.
  induction 1 as [|bs c rest ps Hw Hs IH|bs rest ps Hm Hs IH];
    cbn [map unicode.converted]; intros Hn.
  - split; [constructor|reflexivity].
  - destruct (well_formed_sequence_encode bs c Hw) as [Hc He].
    destruct IH as [IH1 IH2]; [intros Hin; apply Hn; right; exact Hin|].
    split; [constructor; assumption|].
    unfold unicode.encode_all in *. cbn [flat_map]. rewrite He, IH2.
    reflexivity.
  - exfalso. apply Hn. left. reflexivity.
Qed.

(** X8.  When driving a fresh decoder over a byte sequence gives no U+FFFD,
    the code points are scalar values and the byte sequence is their
    encoding: nothing but the one well-formed sequence of a scalar value
    decodes to it. *)
Theorem decoded_without_replacement (bytes : list Byte.byte) (cs : list Z) :
  drive decoder.new bytes = Ok cs ->
  ~ In 0xFFFD cs ->
  Forall unicode.is_scalar_value cs /\ unicode.encode_all cs = bytes.
Proof.
  rewrite drive_unicode. intros H Hn. injection H as <-.
  exact (splits_encode bytes _ (subparts_splits _ bytes (le_n _)) Hn).
Qed.

Lemma decoded_without_replacement_witness :
  Forall unicode.is_scalar_value [0x24; 0x20AC] /\
  unicode.encode_all [0x24; 0x20AC] =
  [Byte.x24; Byte.xe2; Byte.x82; Byte.xac].
Proof.
  apply (decoded_without_replacement
           [Byte.x24; Byte.xe2; Byte.x82; Byte.xac] [0x24; 0x20AC]).
  - reflexivity.
  - cbn [In]. lia.
Defined.

Lemma drive_well_formed (bs : list Byte.byte) (c : Z) (rest : list Byte.byte) :
  unicode.well_formed_sequence bs c ->
  drive decoder.new (bs ++ rest) = rmap (cons c) (drive decoder.new rest).
Proof.
  intros H. unfold drive. rewrite (run_well_formed bs c rest H).
  destruct (run decoder.new rest) as [calls|]; [|reflexivity].
  cbn [rmap bind]. rewrite emitted_app, emitted_calls_for. reflexivity.
Qed.

Lemma drive_encode_all (cs : list Z) (rest : list Byte.byte) :
  Forall unicode.is_scalar_value cs ->
  drive decoder.new (unicode.encode_all cs ++ rest) =
  rmap (app cs) (drive decoder.new rest).
Proof.
  induction 1 as [|c cs Hc _ IH].
  - cbn [unicode.encode_all flat_map app].
    destruct (drive decoder.new rest); reflexivity.
  - unfold unicode.encode_all in *. cbn [flat_map]. rewrite <- app_assoc.
    rewrite (drive_well_formed _ c _ (encode_well_formed c Hc)), IH.
    destruct (drive decoder.new rest); reflexivity.
Qed.

(** X10.  Well-formed text decodes on its own: driving a fresh decoder over
    the encoding of scalar values followed by any bytes gives the scalar
    values followed by what driving a fresh decoder over those bytes
    gives. *)
Theorem well_formed_prefix (cs : list Z) (rest : list Byte.byte) :
  Forall unicode.is_scalar_value cs ->
  exists out,
    drive decoder.new rest = Ok out /\
    drive decoder.new (unicode.encode_all cs ++ rest) = Ok (cs ++ out).
Proof.
  intros H. exists (unicode.decode rest).
  split; [apply drive_unicode|].
  rewrite (drive_encode_all cs rest H), drive_unicode. reflexivity.
Qed.

Lemma well_formed_prefix_witness :
  exists out,
    drive decoder.new [Byte.xc2] = Ok out /\
    drive decoder.new (unicode.encode_all [0x24] ++ [Byte.xc2]) =
    Ok ([0x24] ++ out).
Proof.
  apply (well_formed_prefix [0x24] [Byte.xc2]).
  repeat constructor; unfold unicode.is_scalar_value; lia.
Defined.

(** ** Ill-formed input *)

Lemma truncated_is_maximal (p q : list Byte.byte) (c : Z) :
  p <> [] -> q <> [] -> unicode.well_formed_sequence (p ++ q) c ->
  unicode.maximal_subpart p [].
Proof.
  intros Hp Hq Hw. split; [exact Hp|]. split; [|split].
  - intros (bs & rest & c' & E & Hw'). rewrite app_nil_r in E.
    assert (E' : bs ++ rest ++ q = (p ++ q) ++ [])
      by (rewrite app_nil_r, app_assoc, <- E; reflexivity).
    destruct (well_formed_sequence_prefix _ _ _ _ _ _ Hw' Hw E')
      as (Hb & _ & Hr).
    apply app_eq_nil in Hr. destruct Hr as [_ Hr]. contradiction.
  - left. exists q, c. exact Hw.
  - intros more rest' E Hm _. symmetry in E. apply app_eq_nil in E.
    destruct E as [E _]. contradiction.
Qed.

Lemma drive_truncated (p q : list Byte.byte) (c : Z) :
  p <> [] -> q <> [] -> unicode.well_formed_sequence (p ++ q) c ->
  drive decoder.new p = Ok [0xFFFD].
Proof.
  intros Hp Hq Hw. rewrite drive_unicode. unfold unicode.decode.
  assert (Hs : unicode.splits p [unicode.ill_formed p]).
  { rewrite <- (app_nil_r p) at 1.
    apply unicode.splits_ill_formed;
      [exact (truncated_is_maximal p q c Hp Hq Hw)|constructor]. }
  rewrite (splits_unique p _ (subparts_splits _ p (le_n _)) _ Hs).
  reflexivity.
Qed.

(** X17.  Input that ends in the middle of a sequence: driving a fresh
    decoder over the encoding of scalar values followed by a proper,
    non-empty beginning of the encoding of one more gives the scalar values
    followed by one U+FFFD. *)
Theorem truncated_input (cs : list Z) (c : Z) (p q : list Byte.byte) :
  Forall unicode.is_scalar_value cs ->
  unicode.is_scalar_value c ->
  unicode.encode c = p ++ q -> p <> [] -> q <> [] ->
  drive decoder.new (unicode.encode_all cs ++ p) = Ok (cs ++ [0xFFFD]).
Proof.
  intros Hcs Hc E Hp Hq.
  pose proof (encode_well_formed c Hc) as Hw. rewrite E in Hw.
  rewrite (drive_encode_all cs p Hcs), (drive_truncated p q c Hp Hq Hw).
  reflexivity.
Qed.

Lemma truncated_input_witness :
  drive decoder.new (unicode.encode_all [0x24] ++ [Byte.xe2; Byte.x82]) =
  Ok ([0x24] ++ [0xFFFD]).
Proof.
  apply (truncated_input [0x24] 0x20AC [Byte.xe2; Byte.x82] [Byte.xac]).
  - repeat constructor; unfold unicode.is_scalar_value; lia.
  - unfold unicode.is_scalar_value; lia.
  - reflexivity.
  - discriminate.
  - discriminate.
Defined.

Lemma trail_not_first (b : Byte.byte) :
  unicode.is_trail b = true ->
  unicode.in_range 0x00 0x7F b = false /\ unicode.first_byte b = None.
Proof. destruct b; intros H; try discriminate H; split; reflexivity. Qed.

Lemma pump_trails (tail : list Byte.byte) :
  Forall (fun b => unicode.is_trail b = true) tail ->
  pump decoder.new tail = Ok (repeat 0xFFFD (length tail)).
Proof.
  induction 1 as [|b tail Hb _ IH]; [reflexivity|].
  destruct (trail_not_first b Hb) as [H0 H1].
  rewrite (pump_not_first b tail H0 H1), IH. reflexivity.
Qed.

(** X18.  A byte that is not 00..7F followed by continuation bytes, the
    first of which cannot follow it in any well-formed sequence, gives one
    U+FFFD for each byte.  This is what becomes of overlong forms (C0 80,
    E0 80 80), of surrogates (ED A0 80), of values above U+10FFFF
    (F4 90 80 80), of the five- and six-byte forms and of runs of
    continuation bytes. *)
Theorem replaced_byte_by_byte (b1 : Byte.byte) (tail : list Byte.byte) :
  unicode.in_range 0x00 0x7F b1 = false ->
  Forall (fun b => unicode.is_trail b = true) tail ->
  (forall b2 rest,
     tail = b2 :: rest -> ~ unicode.initial_subsequence [b1; b2]) ->
  drive decoder.new (b1 :: tail) = Ok (repeat 0xFFFD (S (length tail))).
Proof.
  intros H0 Ht Hn. rewrite <- pump_drive.
  destruct (unicode.first_byte b1) as [r|] eqn:E1.
  - rewrite (pump_first b1 r tail H0 E1).
    destruct tail as [|b2 rest].
    + rewrite pump_at_end by apply awaiting_row. reflexivity.
    + assert (E2 : is_wanted (state_of_row r) b2 = false).
      { rewrite <- is_second_wanted.
        destruct (unicode.is_second r b2) eqn:E2; [|reflexivity].
        exfalso. apply (Hn b2 rest eq_refl).
        exact (two_bytes_initial b1 b2 r E1 E2). }
      rewrite pump_interrupted by (first [apply awaiting_row|exact E2]).
      rewrite (pump_trails _ Ht). reflexivity.
  - rewrite (pump_not_first b1 tail H0 E1), (pump_trails _ Ht). reflexivity.
Qed.

Lemma replaced_byte_by_byte_witness :
  drive decoder.new [Byte.xed; Byte.xa0; Byte.x80] =
  Ok [0xFFFD; 0xFFFD; 0xFFFD].
Proof.
  apply (replaced_byte_by_byte Byte.xed [Byte.xa0; Byte.x80]).
  - reflexivity.
  - repeat constructor.
  - intros b2 rest E H. injection E as <- _.
    apply initial_begins in H. discriminate H.
Defined.

(** ** The view, element by element *)

Lemma drive_nil_out (bytes : list Byte.byte) :
  unicode.decode bytes = [] -> bytes = [].
Proof.
  intros E. pose proof (subparts_length _ bytes (le_n _)) as H.
  unfold unicode.decode in E. apply (f_equal (@length Z)) in E.
  rewrite length_map in E. cbn [length] in E.
  destruct bytes; [reflexivity|cbn [length] in H; lia].
Qed.

(** X16.  The view over the encoding of scalar values has exactly these
    scalar values as its elements. *)
Theorem view_of_encoding (cs : list Z) (fuel : nat) :
  Forall unicode.is_scalar_value cs ->
  (2 * length (unicode.encode_all cs) + 2 <= fuel)%nat ->
  views.decode fuel (unicode.encode_all cs) = Some (Ok cs).
Proof.
  intros Hcs Hf. unfold views.decode.
  rewrite elements_traverse, traverse_pump by exact Hf.
  rewrite pump_drive.
  rewrite <- (app_nil_r (unicode.encode_all cs)).
  rewrite (drive_encode_all cs [] Hcs). cbn [drive run bind rmap emitted
    flat_map returned decoder.check_last_error decoder.new decoder.state_
    opt_list app].
  rewrite app_nil_r. reflexivity.
Qed.

Lemma view_of_encoding_witness :
  views.decode 40 (unicode.encode_all [0x24; 0xA3; 0x418; 0x939; 0x20AC;
                                      0xD55C; 0x10348; 0x00]) =
  Some (Ok [0x24; 0xA3; 0x418; 0x939; 0x20AC; 0xD55C; 0x10348; 0x00]).
Proof.
  apply view_of_encoding.
  - repeat constructor; unfold unicode.is_scalar_value; lia.
  - vm_compute. lia.
Defined.

Lemma bit_cast_byte_val (b : Byte.byte) :
  views.bit_cast_char8_t (byte_val b) = b.
Proof. destruct b; reflexivity. Qed.

Lemma bit_cast_signed_char (b : Byte.byte) :
  views.bit_cast_char8_t (signed_char b) = b.
Proof. destruct b; reflexivity. Qed.

(** X15.  The overload for ranges of [char] gives what the overload for
    ranges of [char8_t] gives on the same bytes, whether [char] is signed
    (bytes from 80 on are negative values) or not; a signed [char] is in
    [-128..127]. *)
Theorem decode_char_as_bytes (fuel : nat) (bytes : list Byte.byte) :
  views.decode_char fuel (map signed_char bytes) = views.decode fuel bytes /\
  views.decode_char fuel (map byte_val bytes) = views.decode fuel bytes /\
  Forall (fun c => -128 <= c <= 127) (map signed_char bytes).
Proof.
  unfold views.decode_char, views.decode. rewrite !map_map.
  split; [|split].
  - rewrite (map_ext _ (fun b => b) bit_cast_signed_char), map_id.
    reflexivity.
  - rewrite (map_ext _ (fun b => b) bit_cast_byte_val), map_id.
    reflexivity.
  - apply Forall_forall. intros c Hc. apply in_map_iff in Hc.
    destruct Hc as (b & <- & _). unfold signed_char.
    pose proof (byte_val_range b).
    destruct (byte_val b <? 128) eqn:E; lia.
Qed.

Lemma decode_loop_kept (it : list Byte.byte) :
  forall d : decoder.t,
    well_kept d ->
    decoder.to_deliver_ d = decoder.to_deliver.nothing ->
    exists exit,
      decode_view.decode_loop it d = Ok exit /\
      match exit with
      | decode_view.at_end d' =>
          well_kept d' /\
          decoder.to_deliver_ d' = decoder.to_deliver.nothing
      | decode_view.at_code it' d' c =>
          well_kept d' /\ unicode.is_scalar_value c /\ it' <> [] /\
          exists skipped, it = skipped ++ it'
      end.
Proof.
  induction it as [|b rest IH]; intros d Hd Hp.
  - eexists. split; [reflexivity|]. split; assumption.
  - cbn [decode_view.decode_loop].
    destruct (decode_well_kept d b Hd) as (r & d1 & E & H1 & S1).
    rewrite E. cbn [bind]. destruct r as [v|].
    + eexists. split; [reflexivity|]. split; [exact H1|].
      split; [apply S1; reflexivity|]. split; [discriminate|].
      exists []. reflexivity.
    + pose proof (decode_nothing_pending d b d1 E) as F.
      assert (P1 : decoder.to_deliver_ d1 = decoder.to_deliver.nothing).
      { unfold decoder.fetch in F. injection F as F _.
        destruct (decoder.to_deliver_ d1); [reflexivity|discriminate F..]. }
      destruct (IH d1 H1 P1) as (exit & Ee & He).
      exists exit. split; [exact Ee|].
      destruct exit as [d'|it' d' c]; [exact He|].
      destruct He as (K1 & K2 & K3 & skipped & ->).
      split; [exact K1|]. split; [exact K2|]. split; [exact K3|].
      exists (b :: skipped). reflexivity.
Qed.

(** The iterator's [decode] member, from an iterator whose flag is not set
    and whose decoder has nothing pending. *)
Lemma iterator_decode_kept (view_ : list Byte.byte)
      (it : list Byte.byte) (d : decoder.t) (c : Z) :
  (exists consumed, view_ = consumed ++ it) ->
  well_kept d ->
  decoder.to_deliver_ d = decoder.to_deliver.nothing ->
  exists i,
    decode_view.decode (decode_view.mk_iterator it d c false) = Ok i /\
    iterator_kept view_ i.
Proof.
  intros [consumed Hv] Hd Hp.
  destruct (decode_loop_kept it d Hd Hp) as (exit & Ee & He).
  unfold decode_view.decode.
  cbn [decode_view.it_ decode_view.decoder_ decode_view.code_
       decode_view.has_last_error_].
  rewrite Ee. cbn [bind].
  destruct exit as [d'|it' d' v].
  - destruct He as [K1 K2]. unfold decoder.check_last_error.
    destruct (decoder.state_ d') eqn:Es;
      eexists; (split; [reflexivity|]);
      (split; [exists view_; cbn [decode_view.it_]; symmetry;
               apply app_nil_r|]);
      (split; [exact K1|]);
      cbn [decode_view.it_ decode_view.decoder_ decode_view.code_
           decode_view.has_last_error_ decode_view.is_end negb];
      (split; [first [discriminate
                     | intros _; split; [reflexivity|];
                       split; [reflexivity|rewrite Es; discriminate]]|]);
      (split; [intros _; exact K2|]);
      first [discriminate | intros _; apply replacement_is_scalar].
  - destruct He as (K1 & K2 & K3 & skipped & ->).
    eexists. split; [reflexivity|].
    split; [exists (consumed ++ skipped); cbn [decode_view.it_];
            rewrite Hv, app_assoc; reflexivity|].
    split; [exact K1|].
    cbn [decode_view.it_ decode_view.decoder_ decode_view.code_
         decode_view.has_last_error_].
    split; [discriminate|]. split; [intros E; contradiction|].
    intros _. exact K2.
Qed.

Lemma begin_kept (view_ : list Byte.byte) :
  exists i, decode_view.begin view_ = Ok i /\ iterator_kept view_ i.
Proof.
  unfold decode_view.begin.
  apply iterator_decode_kept;
    [exists []; reflexivity|exact well_kept_new|reflexivity].
Qed.

Lemma incr_kept (view_ : list Byte.byte) (i : decode_view.iterator) :
  iterator_kept view_ i ->
  exists i', decode_view.incr i = Ok i' /\ iterator_kept view_ i'.
Proof.
  destruct i as [it d c hle].
  intros (Hv & Hd & Hl & Hp & Hs).
  cbn [decode_view.it_ decode_view.decoder_ decode_view.code_
       decode_view.has_last_error_] in *.
  unfold decode_view.incr. cbn [decode_view.has_last_error_].
  destruct hle.
  - destruct (Hl eq_refl) as (-> & -> & Hn).
    eexists. split; [reflexivity|].
    split; [exact Hv|]. split; [exact Hd|].
    cbn [decode_view.it_ decode_view.decoder_ decode_view.code_
         decode_view.has_last_error_ decode_view.is_end negb].
    split; [discriminate|]. split; [exact Hp|discriminate].
  - unfold decode_view.try_decode_one_code_point.
    cbn [decode_view.it_ decode_view.decoder_ decode_view.code_
         decode_view.has_last_error_].
    destruct (fetch_well_kept d Hd) as [Hd2 Hs2].
    destruct (decoder.fetch d) as [[v|] d2] eqn:F; cbn [fst snd] in Hd2, Hs2.
    + destruct it as [|b rest].
      { exfalso. unfold decoder.fetch in F.
        rewrite (Hp eq_refl) in F. discriminate F. }
      eexists. split; [reflexivity|].
      split; [exact Hv|]. split; [exact Hd2|].
      cbn [decode_view.it_ decode_view.decoder_ decode_view.code_
           decode_view.has_last_error_ decode_view.is_end].
      split; [discriminate|]. split; [discriminate|].
      intros _. apply Hs2. reflexivity.
    + apply iterator_decode_kept.
      * destruct Hv as [consumed Hv]. destruct it as [|b rest].
        -- exists consumed. exact Hv.
        -- exists (consumed ++ [b]). rewrite <- app_assoc. exact Hv.
      * exact Hd2.
      * unfold decoder.fetch in F. injection F as _ <-. reflexivity.
Qed.

Lemma increments_kept (view_ : list Byte.byte) (n : nat) :
  forall i : decode_view.iterator,
    iterator_kept view_ i ->
    exists i', increments n i = Ok i' /\ iterator_kept view_ i'.
Proof.
  induction n as [|n IH]; intros i Hi.
  - exists i. split; [reflexivity|exact Hi].
  - destruct (incr_kept view_ i Hi) as (i1 & E1 & H1).
    destruct (IH i1 H1) as (i' & E' & H').
    exists i'. cbn [increments]. rewrite E1. cbn [bind].
    split; [exact E'|exact H'].
Qed.

(** X12.  The constructor and any number of [operator++] after it never
    throw, and the iterator they give points into the input, exposes a
    scalar value unless it is at the end, and has its final-error flag set
    only when the input is used up, U+FFFD is exposed and the decoder is not
    at [start]. *)
Theorem iterator_invariant (view_ : list Byte.byte) (n : nat) :
  exists i,
    (i0 <- decode_view.begin view_ ;; increments n i0) = Ok i /\
    (exists consumed, view_ = consumed ++ decode_view.it_ i) /\
    (decode_view.is_end i = false ->
     unicode.is_scalar_value (decode_view.deref i)) /\
    (decode_view.has_last_error_ i = true ->
     decode_view.it_ i = [] /\ decode_view.deref i = 0xFFFD /\
     decoder.state_ (decode_view.decoder_ i) <> decoder.state.start).
Proof.
  destruct (begin_kept view_) as (i0 & E0 & H0).
  destruct (increments_kept view_ n i0 H0) as (i & E & (Hv & _ & Hl & _ & Hs)).
  exists i. rewrite E0. cbn [bind].
  split; [exact E|]. split; [exact Hv|]. split; [exact Hs|exact Hl].
Qed.

(** X11.  The constructor leaves the iterator at the end exactly for the
    empty input: over any other input the first element is there to be
    read. *)
Theorem begin_at_end_iff_empty (view_ : list Byte.byte) :
  exists i,
    decode_view.begin view_ = Ok i /\
    (decode_view.is_end i = true <-> view_ = []) /\
    (view_ <> [] -> unicode.is_scalar_value (decode_view.deref i)).
Proof.
  destruct (begin_kept view_) as (i & E & (_ & _ & _ & _ & Hs)).
  exists i. split; [exact E|].
  assert (Hiff : decode_view.is_end i = true <-> view_ = []).
  { split.
    - intros He.
      pose proof (traverse_pump view_ decoder.new 0 _ (le_n _)) as Ht.
      unfold traverse in Ht. fold (decode_view.begin view_) in Ht.
      rewrite E in Ht. rewrite Nat.add_comm in Ht.
      cbn [Nat.add decode_view.collect] in Ht. rewrite He in Ht.
      rewrite pump_drive, drive_unicode in Ht. injection Ht as Ht.
      apply drive_nil_out. symmetry. exact Ht.
    - intros ->. cbn in E. injection E as <-. reflexivity. }
  split; [exact Hiff|].
  intros Hne. apply Hs.
  destruct (decode_view.is_end i); [|reflexivity].
  exfalso. apply Hne. apply Hiff. reflexivity.
Qed.

(** X13.  [operator++] on an iterator that is at the end: when the decoder
    is at [start] (the input did not end inside a sequence) the iterator
    stays as it is; otherwise the iterator leaves the end again and exposes
    U+FFFD once more. *)
Theorem increment_at_end (view_ : list Byte.byte) (n : nat)
        (i : decode_view.iterator) :
  (i0 <- decode_view.begin view_ ;; increments n i0) = Ok i ->
  decode_view.is_end i = true ->
  (decoder.state_ (decode_view.decoder_ i) = decoder.state.start ->
   decode_view.incr i = Ok i) /\
  (decoder.state_ (decode_view.decoder_ i) <> decoder.state.start ->
   exists i',
     decode_view.incr i = Ok i' /\ decode_view.is_end i' = false /\
     decode_view.deref i' = 0xFFFD).
Proof.
  intros E He.
  destruct (begin_kept view_) as (i0 & E0 & H0).
  rewrite E0 in E. cbn [bind] in E.
  destruct (increments_kept view_ n i0 H0) as (i' & E' & (_ & _ & _ & Hp & _)).
  rewrite E in E'. injection E' as <-.
  destruct i as [it [c s td] code hle].
  unfold decode_view.is_end in He.
  cbn [decode_view.it_ decode_view.decoder_ decode_view.has_last_error_
       decoder.state_ decoder.to_deliver_] in *.
  destruct it as [|b rest]; [|discriminate He].
  destruct hle; [discriminate He|].
  rewrite (Hp eq_refl).
  split.
  - intros ->. reflexivity.
  - intros Hs. destruct s; try (contradiction Hs; reflexivity);
      (eexists; split; [reflexivity|]; split; reflexivity).
Qed.

Lemma increment_at_end_witness :
  exists i',
    decode_view.incr
      (decode_view.mk_iterator
         [] (decoder.mk 0x02 decoder.state.next1 decoder.to_deliver.nothing)
         0xFFFD false) = Ok i' /\
    decode_view.is_end i' = false /\ decode_view.deref i' = 0xFFFD.
Proof.
  refine (proj2 (increment_at_end [Byte.xc2] 1 _ eq_refl eq_refl) _).
  discriminate.
Defined.

(** ** No reading ahead *)

Lemma decode_loop_more (it : list Byte.byte) :
  forall (d : decoder.t) (it' : list Byte.byte) (d' : decoder.t) (c : Z)
         (more : list Byte.byte),
    decode_view.decode_loop it d = Ok (decode_view.at_code it' d' c) ->
    decode_view.decode_loop (it ++ more) d =
    Ok (decode_view.at_code (it' ++ more) d' c).
Proof.
  induction it as [|b rest IH]; intros d it' d' c more H.
  - discriminate H.
  - cbn [decode_view.decode_loop app] in H |- *.
    destruct (decoder.decode d b) as [[[v|] d1]|]; cbn [bind] in H |- *.
    + injection H as <- <- <-. reflexivity.
    + exact (IH d1 it' d' c more H).
    + discriminate H.
Qed.

Lemma iterator_decode_more (j i : decode_view.iterator)
      (more : list Byte.byte) :
  decode_view.decode j = Ok i -> decode_view.it_ i <> [] ->
  decode_view.decode (extended more j) = Ok (extended more i).
Proof.
  unfold decode_view.decode, extended.
  cbn [decode_view.it_ decode_view.decoder_ decode_view.code_
       decode_view.has_last_error_].
  destruct (decode_view.decode_loop (decode_view.it_ j)
                                    (decode_view.decoder_ j))
    as [[d'|it' d' c]|] eqn:E; cbn [bind]; intros H Hn.
  - exfalso.
    destruct (decoder.check_last_error d'); injection H as <-;
      apply Hn; reflexivity.
  - rewrite (decode_loop_more _ _ _ _ _ more E). cbn [bind].
    injection H as <-. reflexivity.
  - discriminate H.
Qed.

(** X14.  The iterator reads no further than the byte that gave the element
    it exposes: when the constructor or [operator++] stops before the end of
    the input, it does the same, and leaves the same decoder and element,
    whatever bytes are added to the end of the input. *)
Theorem no_reading_ahead (more : list Byte.byte) :
  (forall view_ i,
     decode_view.begin view_ = Ok i -> decode_view.it_ i <> [] ->
     decode_view.begin (view_ ++ more) = Ok (extended more i)) /\
  (forall j i,
     decode_view.incr j = Ok i -> decode_view.it_ i <> [] ->
     decode_view.incr (extended more j) = Ok (extended more i)).
Proof.
  split.
  - intros view_ i H Hn. unfold decode_view.begin in *.
    exact (iterator_decode_more _ i more H Hn).
  - intros [it d c hle] i. unfold decode_view.incr, extended.
    cbn [decode_view.it_ decode_view.decoder_ decode_view.code_
         decode_view.has_last_error_].
    destruct hle.
    + intros H Hn. injection H as <-. reflexivity.
    + unfold decode_view.try_decode_one_code_point.
      cbn [decode_view.it_ decode_view.decoder_ decode_view.code_
           decode_view.has_last_error_].
      destruct (decoder.fetch d) as [[v|] d2].
      * intros H Hn. injection H as <-. reflexivity.
      * destruct it as [|b rest]; intros H Hn.
        -- exfalso. cbn in H.
           destruct (decoder.check_last_error d2); injection H as <-;
             apply Hn; reflexivity.
        -- cbn [app]. exact (iterator_decode_more _ i more H Hn).
Qed.

(** ** Reusing and resynchronising a decoder *)

Lemma drive_from_start (c : Z) (td : decoder.to_deliver.t)
      (bytes : list Byte.byte) :
  drive (decoder.mk c decoder.state.start td) bytes = drive decoder.new bytes.
Proof. rewrite <- !pump_drive. apply pump_from_start. Qed.

(** X19.  A decoder for which [check_last_error] returns nothing can be used
    for another input as it is: driving it gives what driving a fresh
    decoder gives, whatever its accumulator holds and whatever is
    pending. *)
Theorem reuse_after_complete_input (d : decoder.t) (bytes : list Byte.byte) :
  decoder.check_last_error d = None ->
  drive d bytes = drive decoder.new bytes.
Proof.
  destruct d as [c s td]. unfold decoder.check_last_error.
  cbn [decoder.state_]. intros H.
  destruct s; try discriminate H. apply drive_from_start.
Qed.

Lemma reuse_after_complete_input_witness :
  drive (decoder.mk 0x20AC decoder.state.start decoder.to_deliver.code_point)
        [Byte.xc2; Byte.xa3] =
  drive decoder.new [Byte.xc2; Byte.xa3].
Proof.
  exact (reuse_after_complete_input
           (decoder.mk 0x20AC decoder.state.start
                       decoder.to_deliver.code_point)
           [Byte.xc2; Byte.xa3] eq_refl).
Defined.

(** X20.  A byte that cannot continue the sequence in progress ends it and
    starts over: when the class of the byte leads from the current state,
    which is not [start], to [error], driving the decoder over the byte and
    what follows gives U+FFFD followed by what a fresh decoder gives on the
    same bytes. *)
Theorem resynchronised_at_interrupting_byte
        (d : decoder.t) (b : Byte.byte) (t : Z) (rest : list Byte.byte) :
  decoder.state_ d <> decoder.state.start ->
  at_ decoder.char_classes_ (byte_val b) = Ok t ->
  decoder.next_state (decoder.state_ d) t = Ok decoder.state.error ->
  drive d (b :: rest) = rmap (cons 0xFFFD) (drive decoder.new (b :: rest)).
Proof.
  destruct d as [c s td]. cbn [decoder.state_]. intros Hs Ht Hn.
  assert (Ha : awaiting s = true).
  { destruct s; try reflexivity; [contradiction Hs; reflexivity|].
    destruct b; injection Ht as <-; discriminate Hn. }
  destruct (next_state_awaiting s b Ha) as (t' & Ht' & Hn').
  rewrite Ht in Ht'. injection Ht' as <-. rewrite Hn in Hn'.
  assert (Hw : is_wanted s b = false).
  { destruct (is_wanted s b); [|reflexivity].
    destruct s; try discriminate Ha; discriminate Hn'. }
  rewrite <- !pump_drive. exact (pump_interrupted c s td b rest Ha Hw).
Qed.

Lemma resynchronised_at_interrupting_byte_witness :
  drive (decoder.mk 0x0D decoder.state.next4 decoder.to_deliver.nothing)
        [Byte.xa0; Byte.x80] =
  rmap (cons 0xFFFD) (drive decoder.new [Byte.xa0; Byte.x80]).
Proof.
  exact (resynchronised_at_interrupting_byte
           (decoder.mk 0x0D decoder.state.next4 decoder.to_deliver.nothing)
           Byte.xa0 7 [Byte.x80] ltac:(discriminate) eq_refl eq_refl).
Defined.

(** ** Encoding what was decoded *)

Lemma unicode_decode_scalar (bytes : list Byte.byte) :
  Forall unicode.is_scalar_value (unicode.decode bytes).
Proof.
  destruct (pump_well_kept bytes decoder.new well_kept_new) as (out & E & S).
  rewrite pump_drive, drive_unicode in E. injection E as <-. exact S.
Qed.

(** X21.  Encoding the code points that driving a fresh decoder gives, and
    driving a fresh decoder over that, gives the same code points again;
    and the encoding is the input itself exactly when the input is the
    encoding of some scalar values. *)
Theorem encoding_the_decoded (bytes : list Byte.byte) :
  exists out,
    drive decoder.new bytes = Ok out /\
    drive decoder.new (unicode.encode_all out) = Ok out /\
    (unicode.encode_all out = bytes <->
     exists cs,
       Forall unicode.is_scalar_value cs /\ bytes = unicode.encode_all cs).
Proof.
  exists (unicode.decode bytes).
  pose proof (unicode_decode_scalar bytes) as Hs.
  assert (Hd : forall cs, Forall unicode.is_scalar_value cs ->
                          drive decoder.new (unicode.encode_all cs) = Ok cs).
  { intros cs Hcs. rewrite <- (app_nil_r (unicode.encode_all cs)).
    rewrite (drive_encode_all cs [] Hcs).
    cbn [drive run bind rmap emitted flat_map returned
         decoder.check_last_error decoder.new decoder.state_ opt_list app].
    rewrite app_nil_r. reflexivity. }
  split; [apply drive_unicode|]. split; [exact (Hd _ Hs)|].
  split.
  - intros E. exists (unicode.decode bytes).
    split; [exact Hs|symmetry; exact E].
  - intros (cs & Hcs & ->).
    pose proof (Hd cs Hcs) as E. rewrite drive_unicode in E.
    injection E as ->. reflexivity.
Qed.

(** ** The accumulator *)

Lemma accumulates_tight (s : decoder.state.t) (c : Z) :
  accumulates s c = true -> awaiting s = true -> 0 <= c <= 0x43FF.
Proof.
  destruct s; cbn [accumulates awaiting]; intros H Ha;
    try discriminate Ha; lia.
Qed.

Lemma decode_accumulator_bound (d : decoder.t) (b : Byte.byte)
      (r : option Z) (d' : decoder.t) :
  well_kept d -> 0 <= decoder.code_ d <= 0x10FFFF ->
  decoder.decode d b = Ok (r, d') ->
  0 <= decoder.code_ d' <= 0x10FFFF.
Proof.
  destruct d as [c s td]. intros [Hacc _] Hc.
  cbn [decoder.state_ decoder.code_] in Hacc, Hc.
  pose proof (byte_val_range b) as Hb.
  assert (Hr : 0 <= decoder.code_ (restarted c b) <= 0x10FFFF).
  { unfold restarted. destruct (unicode.in_range 0x00 0x7F b);
      [cbn [decoder.code_]; lia|].
    destruct (unicode.first_byte b) as [r0|]; cbn [decoder.code_];
      [pose proof (lead_payload_bound r0 b); lia|exact Hc]. }
  destruct (awaiting s) eqn:Ea.
  - rewrite (decode_awaiting c s td b Ea).
    destruct (is_wanted s b) eqn:Ew; intros H; injection H as _ <-;
      [|exact Hr].
    cbn [decoder.code_].
    rewrite (shifted_add c b (accumulates_bound s c Hacc Ea)
                         (is_wanted_trail s b Ew)).
    pose proof (accumulates_tight s c Hacc Ea).
    pose proof (is_wanted_trail s b Ew) as Ht. apply in_range_spec in Ht.
    lia.
  - destruct s; try discriminate Ea; [|discriminate Hacc].
    rewrite decode_at_start.
    destruct (unicode.in_range 0x00 0x7F b);
      [intros H; injection H as _ <-; cbn [decoder.code_]; lia|].
    destruct (unicode.first_byte b) as [r0|]; intros H; injection H as _ <-;
      cbn [decoder.code_];
      [pose proof (lead_payload_bound r0 b); lia|exact Hc].
Qed.

Lemma perform_all_accumulator_bound (ops : list operation) :
  forall d : decoder.t,
    well_kept d -> 0 <= decoder.code_ d <= 0x10FFFF ->
    exists rs d',
      perform_all d ops = Ok (rs, d') /\ well_kept d' /\
      0 <= decoder.code_ d' <= 0x10FFFF.
Proof.
  induction ops as [|o ops IH]; intros d Hd Hc.
  - exists [], d. split; [reflexivity|]. split; assumption.
  - destruct (perform_well_kept d o Hd) as (r & d1 & E1 & H1 & _).
    assert (Hc1 : 0 <= decoder.code_ d1 <= 0x10FFFF).
    { destruct o as [b| |]; cbn [perform] in E1.
      - exact (decode_accumulator_bound d b r d1 Hd Hc E1).
      - injection E1 as _ <-. exact Hc.
      - injection E1 as _ <-. exact Hc. }
    destruct (IH d1 H1 Hc1) as (rs & d2 & E2 & H2 & Hc2).
    exists (r :: rs), d2. cbn [perform_all]. rewrite E1. cbn [bind].
    rewrite E2. cbn [bind]. split; [reflexivity|]. split; assumption.
Qed.

(** X22.  The accumulator never needs more than 21 bits: after any calls on
    a fresh decoder it is at most 0x10FFFF, and while a sequence is in
    progress the value that [decode] shifts and ors for a continuation byte
    is at most 0x10FFFF before it is stored, so that the arithmetic of
    [unsigned long] never wraps. *)
Theorem accumulator_never_wraps (ops : list operation) :
  exists rs d,
    perform_all decoder.new ops = Ok (rs, d) /\
    0 <= decoder.code_ d <= 0x10FFFF /\
    (decoder.state_ d <> decoder.state.start ->
     forall b : Byte.byte,
       0 <= Z.lor (Z.shiftl (decoder.code_ d) 6) (Z.land (byte_val b) 0x3f)
         <= 0x10FFFF /\
       to_ulong (Z.lor (to_ulong (Z.shiftl (decoder.code_ d) 6))
                       (Z.land (byte_val b) 0x3f)) =
       Z.lor (Z.shiftl (decoder.code_ d) 6) (Z.land (byte_val b) 0x3f)).
Proof.
  destruct (perform_all_accumulator_bound ops decoder.new well_kept_new
                                          ltac:(cbn; lia))
    as (rs & d & E & [Hacc _] & Hc).
  exists rs, d. split; [exact E|]. split; [exact Hc|].
  intros Hs b.
  assert (Ha : awaiting (decoder.state_ d) = true).
  { destruct (decoder.state_ d); try reflexivity;
      [contradiction Hs; reflexivity|discriminate Hacc]. }
  pose proof (accumulates_tight _ _ Hacc Ha) as Ht.
  pose proof (low6_bound b) as Hl. unfold unicode.low6 in Hl.
  change 0x3f with 0x3F.
  assert (Hv : Z.lor (Z.shiftl (decoder.code_ d) 6)
                     (Z.land (byte_val b) 0x3F) =
               decoder.code_ d * 64 + Z.land (byte_val b) 0x3F).
  { rewrite lor_shiftl_add by (change (2 ^ 6) with 64; lia). reflexivity. }
  assert (Hsh : Z.shiftl (decoder.code_ d) 6 = decoder.code_ d * 64)
    by (rewrite Z.shiftl_mul_pow2 by lia; reflexivity).
  split; [rewrite Hv; lia|].
  rewrite (to_ulong_small (Z.shiftl (decoder.code_ d) 6))
    by (rewrite Hsh; lia).
  apply to_ulong_small. rewrite Hv. lia.
Qed.
